(** * IZA OS autonomous system orchestrator: a shallow embedding

    Source: [src/migrated_functionality/src/autonomous_system_orchestrator.py].

    The development models the three agents ([DecisionMakerAgent],
    [ProcessAutomatorAgent], [SelfHealerAgent]) and the orchestrator
    ([AutonomousSystemOrchestrator]) with its task queue and its two loops.

    Conventions of the embedding:
    - a Python [dict] with string keys is a [gmap string pyval]; a dict
      nested inside a value keeps its insertion order as an association
      list ([VDict]);
    - Python [float]s are exact rationals ([Q]); every bound proved below
      has a margin far above binary64 rounding;
    - [datetime.now()] and [time.time()] are integer clock readings passed
      in by the caller of each operation;
    - task objects live in a store indexed by allocation order, and the
      queue holds references into it, so that mutation of a task after it
      left the queue is visible as such;
    - an exception is a value of [exn]; every fallible operation returns a
      [result]. *)

From Stdlib Require Import ZArith QArith Qminmax Lqa String Ascii List Lia.
From stdpp Require Import base strings gmap list pretty sorting.

Set Warnings "-register-all".

Local Open Scope string_scope.
Local Open Scope Z_scope.

(** ** Python values *)

Inductive pyval : Type :=
  | VNone
  | VBool (b : bool)
  | VInt (z : Z)
  | VFloat (q : Q)
  | VStr (s : string)
  | VList (l : list pyval)
  | VDict (d : list (string * pyval)).

(** CPython's shortest round-trip rendering of a float is not part of the
    repository; the development is parametric in it. *)
Class FloatRepr := float_repr : Q → string.

Inductive exn : Type :=
  | IndexError (msg : string)
  | KeyError (key : string)
  | TypeError (msg : string)
  | ValueError (msg : string)
  | HTTPException (status_code : Z) (detail : string).

Inductive result (A : Type) : Type :=
  | Ok (a : A)
  | Raise (e : exn).
Arguments Ok {A} a.
Arguments Raise {A} e.

#[global] Instance result_bind : MBind result := λ A B k r,
  match r with
  | Ok a => k a
  | Raise e => Raise e
  end.

(** *** Strings: [in], [join], [repr] *)

Definition squote : ascii := "'"%char.
Definition dquote : ascii := "034"%char.
Definition backslash : ascii := "\"%char.

Fixpoint str_mem (c : ascii) (s : string) : bool :=
  match s with
  | EmptyString => false
  | String c' s' => if Ascii.eqb c c' then true else str_mem c s'
  end.

(** [needle in hay] on strings. *)
Fixpoint contains (needle hay : string) : bool :=
  if String.prefix needle hay then true
  else match hay with
       | EmptyString => false
       | String _ hay' => contains needle hay'
       end.

Fixpoint join (sep : string) (l : list string) : string :=
  match l with
  | [] => ""
  | [x] => x
  | x :: l' => x +:+ sep +:+ join sep l'
  end.

Definition hex_digit (n : N) : ascii :=
  match n with
  | 0 => "0" | 1 => "1" | 2 => "2" | 3 => "3" | 4 => "4" | 5 => "5"
  | 6 => "6" | 7 => "7" | 8 => "8" | 9 => "9" | 10 => "a" | 11 => "b"
  | 12 => "c" | 13 => "d" | 14 => "e" | _ => "f"
  end%char%N.

(** [str.isprintable] on one code point below 256. *)
Definition printable (c : ascii) : bool :=
  let n := N_of_ascii c in
  negb ((n <? 32) || ((127 <=? n) && (n <=? 160)) || (n =? 173))%N.

(** One character of [repr(s)] between quotes [q]. *)
Definition escape_char (q c : ascii) : string :=
  let n := N_of_ascii c in
  if Ascii.eqb c backslash then String backslash (String backslash "")
  else if Ascii.eqb c q then String backslash (String q "")
  else if (n =? 10)%N then String backslash "n"
  else if (n =? 13)%N then String backslash "r"
  else if (n =? 9)%N then String backslash "t"
  else if printable c then String c ""
  else String backslash
         (String "x" (String (hex_digit (n / 16)) (String (hex_digit (n mod 16)) ""))).

Fixpoint escape (q : ascii) (s : string) : string :=
  match s with
  | EmptyString => ""
  | String c s' => escape_char q c +:+ escape q s'
  end.

(** [repr] of a [str]: single quotes unless the text has a single quote
    and no double quote. Code points are below 256. *)
Definition str_repr (s : string) : string :=
  let q := if str_mem squote s && negb (str_mem dquote s) then dquote else squote in
  String q (escape q s +:+ String q "").

Fixpoint py_repr `{!FloatRepr} (v : pyval) : string :=
  match v with
  | VNone => "None"
  | VBool b => if b then "True" else "False"
  | VInt z => pretty z
  | VFloat q => float_repr q
  | VStr s => str_repr s
  | VList l => "[" +:+ join ", " (map py_repr l) +:+ "]"
  | VDict d =>
      "{" +:+ join ", " (map (λ kv, str_repr kv.1 +:+ ": " +:+ py_repr kv.2) d) +:+ "}"
  end.

(** [str(v)]. *)
Definition py_str `{!FloatRepr} (v : pyval) : string :=
  match v with
  | VStr s => s
  | _ => py_repr v
  end.

(** Truth value of [v] in a condition. *)
Definition py_truthy (v : pyval) : bool :=
  match v with
  | VNone => false
  | VBool b => b
  | VInt z => negb (z =? 0)
  | VFloat q => negb (Qeq_bool q 0)
  | VStr s => negb (String.eqb s "")
  | VList l => match l with [] => false | _ => true end
  | VDict d => match d with [] => false | _ => true end
  end.

(** The name Python prints for the type of [v] in a [TypeError]. *)
Definition py_type_name (v : pyval) : string :=
  match v with
  | VNone => "NoneType"
  | VBool _ => "bool"
  | VInt _ => "int"
  | VFloat _ => "float"
  | VStr _ => "str"
  | VList _ => "list"
  | VDict _ => "dict"
  end.

(** The numeric value of [v], when [v] is a number ([bool] is an [int]). *)
Definition py_number (v : pyval) : option Q :=
  match v with
  | VBool b => Some (if b then 1 else 0)%Q
  | VInt z => Some (inject_Z z)
  | VFloat q => Some q
  | _ => None
  end.

(** [x * v] for a float [x]. *)
Definition float_mul (x : Q) (v : pyval) : result Q :=
  match py_number v with
  | Some y => Ok (x * y)%Q
  | None =>
      match v with
      | VStr _ | VList _ =>
          Raise (TypeError "can't multiply sequence by non-int of type 'float'")
      | _ =>
          Raise (TypeError ("unsupported operand type(s) for *: 'float' and '"
                            +:+ py_type_name v +:+ "'"))
      end
  end.

(** [v < n] for an int [n]. *)
Definition lt_int (v : pyval) (n : Z) : result bool :=
  match py_number v with
  | Some y => Ok (if Qlt_le_dec y (inject_Z n) then true else false)
  | None =>
      Raise (TypeError ("'<' not supported between instances of '"
                        +:+ py_type_name v +:+ "' and 'int'"))
  end.

(** [str(e)] for an exception [e]. *)
Definition exn_str (e : exn) : string :=
  match e with
  | IndexError msg => msg
  | KeyError key => str_repr key
  | TypeError msg => msg
  | ValueError msg => msg
  | HTTPException code detail => pretty code +:+ ": " +:+ detail
  end.

(** ** DecisionMakerAgent *)

(** One entry of the option table: [{'action', 'impact', 'cost'}]. *)
Record option_entry : Type := {
  action : string;
  impact : string;
  cost : string;
}.

(** A decision dict. [d_success] is the optional ['success'] key, which
    [make_decision] never sets. *)
Record decision : Type := {
  decision_id : string;
  d_type : string;
  d_context : gmap string pyval;
  d_options : list option_entry;
  selected_option : option_entry;
  confidence : Q;
  reasoning : string;
  d_timestamp : Z;
  d_success : option pyval;
}.

Record DecisionMakerAgent : Type := {
  decision_history : list decision;
}.

Definition classify_decision_type (context : gmap string pyval) : string :=
  if decide (is_Some (context !! "performance_issue")) then "performance_optimization"
  else if decide (is_Some (context !! "security_alert")) then "security_response"
  else if decide (is_Some (context !! "resource_constraint")) then "resource_allocation"
  else if decide (is_Some (context !! "business_opportunity")) then "business_strategy"
  else "operational_decision".

Definition generate_options (context : gmap string pyval) : list option_entry :=
  let decision_type := classify_decision_type context in
  if String.eqb decision_type "performance_optimization" then
    [ {| action := "scale_resources"; impact := "high"; cost := "medium" |};
      {| action := "optimize_algorithms"; impact := "medium"; cost := "low" |};
      {| action := "restart_services"; impact := "medium"; cost := "low" |};
      {| action := "investigate_root_cause"; impact := "high"; cost := "low" |} ]
  else if String.eqb decision_type "security_response" then
    [ {| action := "isolate_affected_systems"; impact := "high"; cost := "high" |};
      {| action := "update_security_policies"; impact := "medium"; cost := "low" |};
      {| action := "notify_security_team"; impact := "high"; cost := "low" |};
      {| action := "run_security_scan"; impact := "medium"; cost := "low" |} ]
  else if String.eqb decision_type "resource_allocation" then
    [ {| action := "allocate_more_resources"; impact := "high"; cost := "high" |};
      {| action := "optimize_current_resources"; impact := "medium"; cost := "low" |};
      {| action := "queue_tasks"; impact := "low"; cost := "none" |};
      {| action := "implement_caching"; impact := "medium"; cost := "medium" |} ]
  else [].

Definition impact_score (s : string) : Q :=
  if String.eqb s "high" then 3
  else if String.eqb s "medium" then 2
  else if String.eqb s "low" then 1
  else 1.

Definition cost_score (s : string) : Q :=
  if String.eqb s "none" then 3
  else if String.eqb s "low" then 2
  else if String.eqb s "medium" then 1
  else if String.eqb s "high" then 0
  else 1.

Definition calculate_option_score (opt : option_entry) (context : gmap string pyval)
  : result Q :=
  let base := (impact_score (impact opt) * (6 # 10) + cost_score (cost opt) * (4 # 10))%Q in
  match context !! "urgency" with
  | Some w => float_mul base w
  | None => Ok (base * 1)%Q
  end.

(** The loop of [_select_best_option]: [best] is [(best_option, best_score)]. *)
Fixpoint select_loop (options : list option_entry) (context : gmap string pyval)
    (best : option option_entry * Q) : result (option option_entry * Q) :=
  match options with
  | [] => Ok best
  | opt :: rest =>
      score ← calculate_option_score opt context;
      if Qlt_le_dec best.2 score
      then select_loop rest context (Some opt, score)
      else select_loop rest context best
  end.

Definition select_best_option (options : list option_entry) (context : gmap string pyval)
  : result option_entry :=
  best ← select_loop options context (None, (-1)%Q);
  match best.1 with
  | Some opt => Ok opt
  | None =>
      match options with
      | opt :: _ => Ok opt
      | [] => Raise (IndexError "list index out of range")
      end
  end.

(** [d.get('success', True)] as a condition. *)
Definition counts_as_success (d : decision) : bool :=
  match d_success d with
  | Some v => py_truthy v
  | None => true
  end.

Definition similar_decisions (self : DecisionMakerAgent) (context : gmap string pyval)
  : list decision :=
  filter (λ d, d_type d = classify_decision_type context) (decision_history self).

Definition calculate_confidence (self : DecisionMakerAgent) (opt : option_entry)
    (context : gmap string pyval) : Q :=
  let base_confidence := (7 # 10)%Q in
  let similar := similar_decisions self context in
  let base_confidence :=
    match similar with
    | [] => base_confidence
    | _ :: _ =>
        let success_rate :=
          (inject_Z (Z.of_nat (length (filter (λ d, counts_as_success d = true) similar)))
           / inject_Z (Z.of_nat (length similar)))%Q in
        ((base_confidence + success_rate) / 2)%Q
    end in
  Qmin 1 base_confidence.

Definition generate_reasoning (opt : option_entry) (context : gmap string pyval)
  : result string :=
  let reasoning :=
    "Selected " +:+ action opt +:+ " because it has " +:+ impact opt
    +:+ " impact and " +:+ cost opt +:+ " cost." in
  let reasoning :=
    if py_truthy (default VNone (context !! "urgency"))
    then reasoning +:+ " High urgency situation requires immediate action."
    else reasoning in
  low ← lt_int (default (VInt 0) (context !! "available_resources")) 100;
  Ok (if low : bool
      then reasoning +:+ " Resource constraints favor cost-effective solutions."
      else reasoning).

(** [make_decision]: the decision, or the exception it re-raises, and the
    agent afterwards. [now] is the clock reading. *)
Definition make_decision (self : DecisionMakerAgent) (context : gmap string pyval)
    (now : Z) : result decision * DecisionMakerAgent :=
  let r :=
    let decision_id := "decision_" +:+ pretty now in
    let decision_type := classify_decision_type context in
    let decision_options := generate_options context in
    best_option ← select_best_option decision_options context;
    let conf := calculate_confidence self best_option context in
    why ← generate_reasoning best_option context;
    Ok {| decision_id := decision_id;
          d_type := decision_type;
          d_context := context;
          d_options := decision_options;
          selected_option := best_option;
          confidence := conf;
          reasoning := why;
          d_timestamp := now;
          d_success := None |} in
  match r with
  | Ok d => (Ok d, {| decision_history := (decision_history self ++ [d])%list |})
  | Raise e => (Raise e, self)
  end.

(** ** ProcessAutomatorAgent *)

(** One step of a template: [{'action', 'timeout'}]. *)
Record process_step : Type := {
  step_action : string;
  step_timeout : Z;
}.

Record process_template : Type := {
  steps : list process_step;
}.

(** The dict a step execution returns; ['result'] and ['error'] are the
    keys that only one of the two shapes has. *)
Record step_result : Type := {
  sr_action : string;
  sr_success : bool;
  sr_duration : Q;
  sr_result : option string;
  sr_error : option string;
}.

(** The dict [execute_automation] returns, in either of its two shapes. *)
Record outcome : Type := {
  process_id : string;
  success : bool;
  error : option string;
  results : option (list step_result);
  completed_steps : nat;
  total_steps : nat;
}.

(** What [_execute_step] is to [execute_automation]: a call that yields a
    step result and may change the world [ES] it acts on. *)
Definition step_executor (ES : Type) : Type :=
  process_step → gmap string pyval → ES → step_result * ES.

(** [_execute_step] as the source has it: a one-second sleep and a
    successful result. *)
Definition execute_step : step_executor unit := λ step parameters es,
  ({| sr_action := step_action step;
      sr_success := true;
      sr_duration := 1;
      sr_result := Some ("Successfully executed " +:+ step_action step);
      sr_error := None |}, es).

Definition templates : gmap string process_template :=
  {[ "deployment" :=
       {| steps := [ {| step_action := "validate_config"; step_timeout := 30 |};
                     {| step_action := "build_images"; step_timeout := 300 |};
                     {| step_action := "run_tests"; step_timeout := 120 |};
                     {| step_action := "deploy_services"; step_timeout := 180 |};
                     {| step_action := "verify_deployment"; step_timeout := 60 |} ] |};
     "scaling" :=
       {| steps := [ {| step_action := "analyze_load"; step_timeout := 30 |};
                     {| step_action := "calculate_requirements"; step_timeout := 15 |};
                     {| step_action := "provision_resources"; step_timeout := 120 |};
                     {| step_action := "update_configuration"; step_timeout := 30 |};
                     {| step_action := "verify_scaling"; step_timeout := 60 |} ] |};
     "backup" :=
       {| steps := [ {| step_action := "prepare_backup"; step_timeout := 30 |};
                     {| step_action := "create_backup"; step_timeout := 600 |};
                     {| step_action := "verify_backup"; step_timeout := 60 |};
                     {| step_action := "cleanup_old_backups"; step_timeout := 120 |} ] |} ]}.

(** [templates.get(process_type)]; a list or dict key is unhashable. *)
Definition get_process_template (process_type : pyval) : result (option process_template) :=
  match process_type with
  | VStr s => Ok (templates !! s)
  | VList _ | VDict _ =>
      Raise (TypeError ("unhashable type: '" +:+ py_type_name process_type +:+ "'"))
  | _ => Ok None
  end.

(** The [for step in template['steps']] loop; [acc] is [results] so far. *)
Fixpoint steps_loop {ES : Type} (exec : step_executor ES) (pid : string) (total : nat)
    (todo : list process_step) (parameters : gmap string pyval)
    (acc : list step_result) (es : ES) : result outcome * ES :=
  match todo with
  | [] =>
      (Ok {| process_id := pid; success := true; error := None;
             results := Some acc;
             completed_steps := length acc; total_steps := total |}, es)
  | step :: rest =>
      let '(step_res, es') := exec step parameters es in
      let acc' := (acc ++ [step_res])%list in
      if negb (sr_success step_res) then
        match sr_error step_res with
        | Some err =>
            (Ok {| process_id := pid; success := false; error := Some err;
                   results := None;
                   completed_steps := length acc'; total_steps := total |}, es')
        | None => (Raise (KeyError "error"), es')
        end
      else steps_loop exec pid total rest parameters acc' es'
  end.

Definition execute_automation `{!FloatRepr} {ES : Type} (exec : step_executor ES)
    (process_type : pyval) (parameters : gmap string pyval) (now : Z) (es : ES)
  : result outcome * ES :=
  let pid := "automation_" +:+ pretty now in
  match get_process_template process_type with
  | Raise e => (Raise e, es)
  | Ok None =>
      (Raise (ValueError ("Unknown process type: " +:+ py_str process_type)), es)
  | Ok (Some template) =>
      steps_loop exec pid (length (steps template)) (steps template) parameters [] es
  end.

(** ** SelfHealerAgent *)

Record diagnosis : Type := {
  issue_type : string;
  severity : string;
  root_cause : string;
  diag_confidence : Q;
}.

Record strategy : Type := {
  strat_action : string;
  strat_priority : Z;
}.

Record healing_plan : Type := {
  plan_id : string;
  plan_issue_type : string;
  plan_severity : string;
  strategies : list strategy;
  estimated_duration : Z;
}.

Record strategy_result : Type := {
  hr_action : string;
  hr_priority : Z;
  hr_success : bool;
  hr_duration : Q;
  hr_message : string;
}.

Record healing_result : Type := {
  execution_id : string;
  strategies_executed : nat;
  total_strategies : nat;
  success_rate : Q;
  healing_results : list strategy_result;
}.

Record report : Type := {
  issue_id : pyval;
  rep_diagnosis : diagnosis;
  rep_healing_plan : healing_plan;
  rep_healing_result : healing_result;
  rep_timestamp : Z;
}.

Definition diagnose_issue `{!FloatRepr} (issue : gmap string pyval) : diagnosis :=
  let symptoms := default (VList []) (issue !! "symptoms") in
  if contains "connection_refused" (py_str symptoms) then
    {| issue_type := "service_unavailable"; severity := "high";
       root_cause := "Service is not running or not accessible";
       diag_confidence := 9 # 10 |}
  else if contains "out_of_memory" (py_str symptoms) then
    {| issue_type := "resource_exhaustion"; severity := "critical";
       root_cause := "Insufficient memory resources";
       diag_confidence := 95 # 100 |}
  else if contains "timeout" (py_str symptoms) then
    {| issue_type := "performance_degradation"; severity := "medium";
       root_cause := "Service response time exceeded threshold";
       diag_confidence := 8 # 10 |}
  else
    {| issue_type := "unknown"; severity := "medium";
       root_cause := "Unable to determine root cause";
       diag_confidence := 3 # 10 |}.

Definition healing_strategies : gmap string (list strategy) :=
  {[ "service_unavailable" :=
       [ {| strat_action := "restart_service"; strat_priority := 1 |};
         {| strat_action := "check_dependencies"; strat_priority := 2 |};
         {| strat_action := "verify_configuration"; strat_priority := 3 |} ];
     "resource_exhaustion" :=
       [ {| strat_action := "scale_resources"; strat_priority := 1 |};
         {| strat_action := "optimize_memory_usage"; strat_priority := 2 |};
         {| strat_action := "restart_services"; strat_priority := 3 |} ];
     "performance_degradation" :=
       [ {| strat_action := "analyze_performance"; strat_priority := 1 |};
         {| strat_action := "optimize_queries"; strat_priority := 2 |};
         {| strat_action := "scale_horizontally"; strat_priority := 3 |} ] ]}.

Definition time_estimates : gmap string Z :=
  {[ "restart_service" := 5; "scale_resources" := 10; "optimize_memory_usage" := 15;
     "analyze_performance" := 20; "investigate_issue" := 30 ]}.

Definition estimate_healing_time (l : list strategy) : Z :=
  foldr Z.add 0 (map (λ s, default 10 (time_estimates !! strat_action s)) l).

Definition create_healing_plan (d : diagnosis) (now : Z) : healing_plan :=
  let l := default [ {| strat_action := "investigate_issue"; strat_priority := 1 |};
                     {| strat_action := "collect_logs"; strat_priority := 2 |} ]
                   (healing_strategies !! issue_type d) in
  {| plan_id := "healing_plan_" +:+ pretty now;
     plan_issue_type := issue_type d;
     plan_severity := severity d;
     strategies := l;
     estimated_duration := estimate_healing_time l |}.

Definition execute_healing (plan : healing_plan) (now : Z) : healing_result :=
  let rs := map (λ s, {| hr_action := strat_action s;
                         hr_priority := strat_priority s;
                         hr_success := true;
                         hr_duration := 1;
                         hr_message := "Successfully executed " +:+ strat_action s |})
                (strategies plan) in
  {| execution_id := "healing_exec_" +:+ pretty now;
     strategies_executed := length rs;
     total_strategies := length (strategies plan);
     success_rate := 1;
     healing_results := rs |}.

(** [diagnose_and_heal]; [t_plan], [t_exec] and [t_done] are the clock
    readings before, during and after the healing actions. *)
Definition diagnose_and_heal `{!FloatRepr} (issue : gmap string pyval)
    (t_plan t_exec t_done : Z) : report :=
  let d := diagnose_issue issue in
  let plan := create_healing_plan d t_plan in
  let res := execute_healing plan t_exec in
  {| issue_id := default (VStr "unknown") (issue !! "id");
     rep_diagnosis := d;
     rep_healing_plan := plan;
     rep_healing_result := res;
     rep_timestamp := t_done |}.

(** ** Tasks and system state *)

Inductive AgentType : Type :=
  | DECISION_MAKER
  | PROCESS_AUTOMATOR
  | SYSTEM_MONITOR
  | OPTIMIZER
  | SELF_HEALER.

Inductive TaskPriority : Type :=
  | CRITICAL
  | HIGH
  | MEDIUM
  | LOW.

#[global] Instance AgentType_eq_dec : EqDecision AgentType.
Proof. solve_decision. Defined.
#[global] Instance TaskPriority_eq_dec : EqDecision TaskPriority.
Proof. solve_decision. Defined.

Definition agent_type_value (a : AgentType) : string :=
  match a with
  | DECISION_MAKER => "decision_maker"
  | PROCESS_AUTOMATOR => "process_automator"
  | SYSTEM_MONITOR => "system_monitor"
  | OPTIMIZER => "optimizer"
  | SELF_HEALER => "self_healer"
  end.

(** [str(a)], which is also what an f-string prints. *)
Definition agent_type_str (a : AgentType) : string :=
  match a with
  | DECISION_MAKER => "AgentType.DECISION_MAKER"
  | PROCESS_AUTOMATOR => "AgentType.PROCESS_AUTOMATOR"
  | SYSTEM_MONITOR => "AgentType.SYSTEM_MONITOR"
  | OPTIMIZER => "AgentType.OPTIMIZER"
  | SELF_HEALER => "AgentType.SELF_HEALER"
  end.

Definition priority_value (p : TaskPriority) : Z :=
  match p with
  | CRITICAL => 1
  | HIGH => 2
  | MEDIUM => 3
  | LOW => 4
  end.

(** [AgentType(v)]: lookup of a member by value. *)
Definition AgentType_of_value (v : string) : result AgentType :=
  if String.eqb v "decision_maker" then Ok DECISION_MAKER
  else if String.eqb v "process_automator" then Ok PROCESS_AUTOMATOR
  else if String.eqb v "system_monitor" then Ok SYSTEM_MONITOR
  else if String.eqb v "optimizer" then Ok OPTIMIZER
  else if String.eqb v "self_healer" then Ok SELF_HEALER
  else Raise (ValueError (str_repr v +:+ " is not a valid AgentType")).

(** [TaskPriority(v)]: lookup of a member by value; the values are the
    ints 1 to 4, which only a number can equal. *)
Definition TaskPriority_of_value `{!FloatRepr} (v : pyval) : result TaskPriority :=
  let invalid := Raise (ValueError (py_repr v +:+ " is not a valid TaskPriority")) in
  match py_number v with
  | Some q =>
      if Qeq_bool q 1 then Ok CRITICAL
      else if Qeq_bool q 2 then Ok HIGH
      else if Qeq_bool q 3 then Ok MEDIUM
      else if Qeq_bool q 4 then Ok LOW
      else invalid
  | None => invalid
  end.

(** What [_execute_task] stores in [task.result]: the dict of the agent
    that ran, or [{'error': ...}]. *)
Inductive task_result : Type :=
  | RDecision (d : decision)
  | ROutcome (o : outcome)
  | RReport (r : report)
  | RError (msg : string).

Record AutonomousTask : Type := {
  task_id : string;
  agent_type : AgentType;
  priority : TaskPriority;
  description : string;
  parameters : gmap string pyval;
  status : string;
  created_at : Z;
  started_at : option Z;
  completed_at : option Z;
  result_payload : option task_result;
  error_message : option string;
}.

Record SystemState : Type := {
  timestamp : Z;
  health_score : Q;
  performance_metrics : gmap string Q;
  active_tasks : nat;
  completed_tasks : nat;
  failed_tasks : nat;
  system_load : Q;
  resource_usage : gmap string Q;
}.

(** The constructor call all producers make: a task with
    [status='pending'] and every optional field at its default. *)
Definition new_task (id : string) (a : AgentType) (p : TaskPriority) (descr : string)
    (params : gmap string pyval) (now : Z) : AutonomousTask :=
  {| task_id := id; agent_type := a; priority := p; description := descr;
     parameters := params; status := "pending"; created_at := now;
     started_at := None; completed_at := None;
     result_payload := None; error_message := None |}.

(** ** AutonomousSystemOrchestrator *)

(** [objects] is the store of task objects in allocation order;
    [task_queue] lists references (indices) into it. *)
Record Orchestrator : Type := {
  decision_maker : DecisionMakerAgent;
  objects : list AutonomousTask;
  task_queue : list nat;
  system_state : SystemState;
}.

Definition init (now : Z) : Orchestrator :=
  {| decision_maker := {| decision_history := [] |};
     objects := [];
     task_queue := [];
     system_state :=
       {| timestamp := now; health_score := 1; performance_metrics := ∅;
          active_tasks := 0; completed_tasks := 0; failed_tasks := 0;
          system_load := 0; resource_usage := ∅ |} |}.

(** [self.task_queue.append(task)] for a task object just created. *)
Definition enqueue (o : Orchestrator) (t : AutonomousTask) : Orchestrator :=
  {| decision_maker := decision_maker o;
     objects := (objects o ++ [t])%list;
     task_queue := (task_queue o ++ [length (objects o)])%list;
     system_state := system_state o |}.

(** In-place update of the task object behind reference [r]. *)
Definition update_task (o : Orchestrator) (r : nat) (f : AutonomousTask → AutonomousTask)
  : Orchestrator :=
  {| decision_maker := decision_maker o;
     objects := alter f r (objects o);
     task_queue := task_queue o;
     system_state := system_state o |}.

(** The sort key [t.priority.value] of the task behind [r]. *)
Definition sort_key (o : Orchestrator) (r : nat) : Z :=
  from_option (λ t, priority_value (priority t)) 0 (objects o !! r).

Definition status_of (o : Orchestrator) (r : nat) : string :=
  from_option status "" (objects o !! r).

(** [list.sort(key=...)]: the stable sort, here by insertion. An element
    goes in front of the first one whose key is not below its own. *)
Fixpoint insert_by {A : Type} (key : A → Z) (x : A) (l : list A) : list A :=
  match l with
  | [] => [x]
  | y :: l' => if key x <=? key y then x :: y :: l' else y :: insert_by key x l'
  end.

Definition sort_by {A : Type} (key : A → Z) (l : list A) : list A :=
  foldr (insert_by key) [] l.

(** The dequeue of [_task_processing_loop]: if the queue is not empty,
    sort it by priority and [pop(0)]. *)
Definition dequeue (o : Orchestrator) : option (nat * Orchestrator) :=
  match task_queue o with
  | [] => None
  | _ :: _ =>
      match sort_by (sort_key o) (task_queue o) with
      | [] => None
      | r :: rest =>
          Some (r, {| decision_maker := decision_maker o;
                      objects := objects o;
                      task_queue := rest;
                      system_state := system_state o |})
      end
  end.

(** *** [_execute_task] *)

Definition mark_in_progress (now : Z) (t : AutonomousTask) : AutonomousTask :=
  {| task_id := task_id t; agent_type := agent_type t; priority := priority t;
     description := description t; parameters := parameters t;
     status := "in_progress"; created_at := created_at t;
     started_at := Some now; completed_at := completed_at t;
     result_payload := result_payload t; error_message := error_message t |}.

Definition mark_completed (res : task_result) (now : Z) (t : AutonomousTask)
  : AutonomousTask :=
  {| task_id := task_id t; agent_type := agent_type t; priority := priority t;
     description := description t; parameters := parameters t;
     status := "completed"; created_at := created_at t;
     started_at := started_at t; completed_at := Some now;
     result_payload := Some res; error_message := error_message t |}.

Definition mark_failed (msg : string) (now : Z) (t : AutonomousTask) : AutonomousTask :=
  {| task_id := task_id t; agent_type := agent_type t; priority := priority t;
     description := description t; parameters := parameters t;
     status := "failed"; created_at := created_at t;
     started_at := started_at t; completed_at := Some now;
     result_payload := result_payload t; error_message := Some msg |}.

(** Clock readings taken while an agent runs. *)
Record clock : Type := {
  t_call : Z;
  t_exec : Z;
  t_done : Z;
}.

(** The [if]/[elif] chain on [task.agent_type]. *)
Definition dispatch `{!FloatRepr} (dm : DecisionMakerAgent) (t : AutonomousTask)
    (c : clock) : result task_result * DecisionMakerAgent :=
  match agent_type t with
  | DECISION_MAKER =>
      let '(r, dm') := make_decision dm (parameters t) (t_call c) in
      (d ← r; Ok (RDecision d), dm')
  | PROCESS_AUTOMATOR =>
      let '(r, _) :=
        execute_automation execute_step
          (default VNone (parameters t !! "process_type")) (parameters t) (t_call c) () in
      (oc ← r; Ok (ROutcome oc), dm)
  | SELF_HEALER =>
      (Ok (RReport (diagnose_and_heal (parameters t) (t_call c) (t_exec c) (t_done c))), dm)
  | _ => (Ok (RError ("Unknown agent type: " +:+ agent_type_str (agent_type t))), dm)
  end.

(** First part of [_execute_task], up to the agent call. *)
Definition execute_task_begin (o : Orchestrator) (r : nat) (now : Z) : Orchestrator :=
  update_task o r (mark_in_progress now).

(** Second part of [_execute_task]: the agent call and what is written
    back, at clock reading [now]. *)
Definition execute_task_finish `{!FloatRepr} (o : Orchestrator) (r : nat) (c : clock)
    (now : Z) : Orchestrator :=
  match objects o !! r with
  | None => o
  | Some t =>
      let '(res, dm') := dispatch (decision_maker o) t c in
      let o' := {| decision_maker := dm'; objects := objects o;
                   task_queue := task_queue o; system_state := system_state o |} in
      match res with
      | Ok payload => update_task o' r (mark_completed payload now)
      | Raise e => update_task o' r (mark_failed (exn_str e) now)
      end
  end.

Definition execute_task `{!FloatRepr} (o : Orchestrator) (r : nat) (t_start : Z)
    (c : clock) (t_end : Z) : Orchestrator :=
  execute_task_finish (execute_task_begin o r t_start) r c t_end.

(** One pass of [_task_processing_loop], up to its sleep, when nothing
    else runs in between: dequeue, then [_execute_task]. *)
Definition task_processing_iteration `{!FloatRepr} (o : Orchestrator) (t_start : Z)
    (c : clock) (t_end : Z) : Orchestrator :=
  match dequeue o with
  | Some (r, o') => execute_task o' r t_start c t_end
  | None => o
  end.

(** *** The monitoring loop *)

(** [_update_system_state]; [h1] and [h2] are the two values of
    [hash(str(datetime.now()))]. *)
Definition update_system_state (o : Orchestrator) (now h1 h2 : Z) : Orchestrator :=
  let st := system_state o in
  {| decision_maker := decision_maker o;
     objects := objects o;
     task_queue := task_queue o;
     system_state :=
       {| timestamp := now;
          health_score := ((95 # 100) + inject_Z (h1 mod 10) / 100)%Q;
          performance_metrics := performance_metrics st;
          active_tasks :=
            length (filter (λ r, status_of o r = "in_progress") (task_queue o));
          completed_tasks :=
            (completed_tasks st
             + length (filter (λ r, status_of o r = "completed") (task_queue o)))%nat;
          failed_tasks := failed_tasks st;
          system_load := ((3 # 10) + inject_Z (h2 mod 70) / 100)%Q;
          resource_usage := resource_usage st |} |}.

(** The text of a clock reading. *)
Definition isoformat (t : Z) : string := pretty t.

Definition detect_issues (o : Orchestrator) (now : Z) : list (list (string * pyval)) :=
  ((if Qlt_le_dec (health_score (system_state o)) (8 # 10)
    then [ [ ("type", VStr "health_degradation"); ("severity", VStr "medium");
             ("symptoms", VList [VStr "low_health_score"]);
             ("timestamp", VStr (isoformat now)) ] ]
    else [])
   ++
   (if Qlt_le_dec (9 # 10) (system_load (system_state o))
    then [ [ ("type", VStr "high_load"); ("severity", VStr "high");
             ("symptoms", VList [VStr "high_system_load"]);
             ("timestamp", VStr (isoformat now)) ] ]
    else []))%list.

Definition detect_optimizations (o : Orchestrator) : list (list (string * pyval)) :=
  if decide (100 < completed_tasks (system_state o))%nat
  then [ [ ("type", VStr "task_cleanup");
           ("description", VStr "Clean up completed tasks");
           ("potential_benefit", VStr "memory_optimization") ] ]
  else [].

(** [d.get(k, dflt)] on a nested dict. *)
Definition dict_get (k : string) (dflt : pyval) (d : list (string * pyval)) : pyval :=
  match list_find (λ kv, kv.1 = k) d with
  | Some (_, kv) => kv.2
  | None => dflt
  end.

Definition healing_task `{!FloatRepr} (issue : list (string * pyval)) (now : Z)
  : AutonomousTask :=
  new_task ("healing_" +:+ pretty now) SELF_HEALER HIGH
    ("Heal issue: " +:+ py_str (dict_get "type" (VStr "unknown") issue))
    {[ "issue" := VDict issue ]} now.

Definition optimization_task `{!FloatRepr} (optimization : list (string * pyval)) (now : Z)
  : AutonomousTask :=
  new_task ("optimization_" +:+ pretty now) OPTIMIZER MEDIUM
    ("Optimize: " +:+ py_str (dict_get "type" (VStr "unknown") optimization))
    {[ "optimization" := VDict optimization ]} now.

(** One pass of [_monitoring_loop], up to its sleep. *)
Definition monitoring_iteration `{!FloatRepr} (o : Orchestrator) (now h1 h2 : Z)
  : Orchestrator :=
  let o1 := update_system_state o now h1 h2 in
  let issues := detect_issues o1 now in
  let o2 := foldl (λ acc issue, enqueue acc (healing_task issue now)) o1 issues in
  let optimizations := detect_optimizations o2 in
  foldl (λ acc opt, enqueue acc (optimization_task opt now)) o2 optimizations.

(** *** REST routes *)

Record TaskRequest : Type := {
  req_agent_type : string;
  req_priority : string;
  req_description : string;
  req_parameters : gmap string pyval;
}.

Record create_response : Type := {
  resp_task_id : string;
  resp_status : string;
  resp_message : string;
}.

(** [POST /tasks]. Any exception becomes an HTTP 400. *)
Definition create_task `{!FloatRepr} (o : Orchestrator) (request : TaskRequest) (now : Z)
  : result create_response * Orchestrator :=
  let built :=
    a ← AgentType_of_value (req_agent_type request);
    p ← TaskPriority_of_value (VStr (req_priority request));
    Ok (new_task ("task_" +:+ pretty now) a p (req_description request)
          (req_parameters request) now) in
  match built with
  | Ok task =>
      (Ok {| resp_task_id := task_id task; resp_status := "created";
             resp_message := "Task added to queue" |},
       enqueue o task)
  | Raise e => (Raise (HTTPException 400 (exn_str e)), o)
  end.

Definition with_decision_maker (o : Orchestrator) (dm : DecisionMakerAgent)
  : Orchestrator :=
  {| decision_maker := dm; objects := objects o;
     task_queue := task_queue o; system_state := system_state o |}.

(** [POST /decisions]. *)
Definition api_make_decision (o : Orchestrator) (context : gmap string pyval) (now : Z)
  : result decision * Orchestrator :=
  let '(r, dm') := make_decision (decision_maker o) context now in
  (r, with_decision_maker o dm').

(** [POST /automation/{process_type}], with the agent's step executor
    [exec] acting on [es]. *)
Definition api_execute_automation `{!FloatRepr} {ES : Type} (exec : step_executor ES)
    (o : Orchestrator) (process_type : string) (params : gmap string pyval) (now : Z)
    (es : ES) : result outcome * Orchestrator * ES :=
  let '(r, es') := execute_automation exec (VStr process_type) params now es in
  (r, o, es').

(** [POST /healing]. *)
Definition api_trigger_healing `{!FloatRepr} (o : Orchestrator)
    (issue : gmap string pyval) (c : clock) : report * Orchestrator :=
  (diagnose_and_heal issue (t_call c) (t_exec c) (t_done c), o).

(** [get_health_status]: the dict it returns. Nothing in its body can
    raise, so the [except] branch with status [unhealthy] is never taken. *)
Record health_metrics : Type := {
  m_active_tasks : nat;
  m_completed_tasks : nat;
  m_failed_tasks : nat;
  m_health_score : Q;
  m_system_load : Q;
}.

Record health_status : Type := {
  hs_status : string;
  hs_message : string;
  hs_components : gmap string string;
  hs_metrics : health_metrics;
}.

Definition get_health_status (o : Orchestrator) : health_status :=
  {| hs_status := "healthy";
     hs_message := "Autonomous System operational";
     hs_components :=
       {[ "decision_maker" := "healthy"; "process_automator" := "healthy";
          "self_healer" := "healthy" ]};
     hs_metrics :=
       {| m_active_tasks := active_tasks (system_state o);
          m_completed_tasks := completed_tasks (system_state o);
          m_failed_tasks := failed_tasks (system_state o);
          m_health_score := health_score (system_state o);
          m_system_load := system_load (system_state o) |} |}.

(** [GET /tasks]: the tasks behind the references of the queue, in queue
    order. *)
Definition get_tasks (o : Orchestrator) : list AutonomousTask :=
  omap (λ r, objects o !! r) (task_queue o).

(** *** The running system

    The event loop runs one coroutine at a time and switches only at an
    [await] that suspends. [running] is the task the processing loop holds
    while its agent call is suspended. *)
Record system : Type := {
  orch : Orchestrator;
  running : option nat;
}.

Definition startup (now : Z) : system :=
  {| orch := init now; running := None |}.

(** One atomic move of the system:
    - [step_monitor]: one pass of the monitoring loop;
    - [step_create_task], [step_make_decision]: REST requests (the
      automation and healing routes leave the orchestrator as it is);
    - [step_producer]: any producer appending a task it has just built
      with [new_task], which is what both the REST route and the
      monitoring loop do;
    - [step_dequeue]: the processing loop takes the next task and
      [_execute_task] runs up to the agent call;
    - [step_complete]: the agent call returns and [_execute_task] writes
      the result back. *)
Inductive step `{!FloatRepr} : system → system → Prop :=
  | step_monitor s now h1 h2 :
      step s {| orch := monitoring_iteration (orch s) now h1 h2; running := running s |}
  | step_create_task s request now :
      step s {| orch := (create_task (orch s) request now).2; running := running s |}
  | step_producer s id a p descr params now :
      step s {| orch := enqueue (orch s) (new_task id a p descr params now);
                running := running s |}
  | step_make_decision s context now :
      step s {| orch := (api_make_decision (orch s) context now).2; running := running s |}
  | step_dequeue s r o' now :
      running s = None →
      dequeue (orch s) = Some (r, o') →
      step s {| orch := execute_task_begin o' r now; running := Some r |}
  | step_complete s r c now :
      running s = Some r →
      step s {| orch := execute_task_finish (orch s) r c now; running := None |}.

(** The states the system can be in, from its start. *)
Definition reachable `{!FloatRepr} (s : system) : Prop :=
  ∃ now, rtc step (startup now) s.


(** * Specification vocabulary *)

(** Order of two elements by sort key. *)
Definition key_le {A : Type} (key : A → Z) (x y : A) : Prop := key x ≤ key y.

(** Well-formedness of the queue: its references are allocated and
    distinct, and within one priority they stand in allocation order,
    that is, in the order in which the tasks were appended. *)
Record queue_wf (o : Orchestrator) : Prop := {
  wf_bound : Forall (λ r, r < length (objects o))%nat (task_queue o);
  wf_nodup : NoDup (task_queue o);
  wf_fifo : ∀ k, StronglySorted lt (filter (λ r, sort_key o r = k) (task_queue o));
}.

Definition all_pending (o : Orchestrator) : Prop :=
  Forall (λ r, status_of o r = "pending") (task_queue o).

Record sys_inv (s : system) : Prop := {
  inv_wf : queue_wf (orch s);
  inv_pending : all_pending (orch s);
  inv_running : ∀ r, running s = Some r →
                (r ∉ task_queue (orch s)) ∧ (r < length (objects (orch s)))%nat;
  inv_completed : completed_tasks (system_state (orch s)) = 0%nat;
}.


(** The tasks in the order in which [n] successive dequeues hand them out. *)
Fixpoint drain_fuel (n : nat) (o : Orchestrator) : list AutonomousTask :=
  match n with
  | O => []
  | S n' =>
      match dequeue o with
      | None => []
      | Some (r, o') => (option_list (objects o !! r) ++ drain_fuel n' o')%list
      end
  end.

Definition drain (o : Orchestrator) : list AutonomousTask :=
  drain_fuel (length (task_queue o)) o.

(** A rendering of floats with which to close examples; no example below
    prints a float. *)
Definition plain_float_repr : FloatRepr :=
  λ q, pretty (Qnum q) +:+ "/" +:+ pretty (Z.pos (Qden q)).

(** ** Step execution, for stating what [execute_automation] does *)

(** Handing every step of [todo] to [exec], in order, whatever it reports:
    the results and the world afterwards. *)
Fixpoint run_all {ES : Type} (exec : step_executor ES) (todo : list process_step)
    (parameters : gmap string pyval) (es : ES) : list step_result * ES :=
  match todo with
  | [] => ([], es)
  | step :: rest =>
      let '(r, es') := exec step parameters es in
      let '(rs, es'') := run_all exec rest parameters es' in
      (r :: rs, es'')
  end.

(** A step executor for tests: it records the actions it is handed and
    fails, with error [err], on the action [bad] only. *)
Definition failing_on (bad err : string) : step_executor (list string) :=
  λ step parameters log,
    let log' := (log ++ [step_action step])%list in
    if String.eqb (step_action step) bad then
      ({| sr_action := step_action step; sr_success := false; sr_duration := 0;
          sr_result := None; sr_error := Some err |}, log')
    else
      ({| sr_action := step_action step; sr_success := true; sr_duration := 1;
          sr_result := Some ("Successfully executed " +:+ step_action step);
          sr_error := None |}, log').

(** ** Confidence, as the specification words it *)

(** The average of the base value 0.7 and the success rate among the
    recorded decisions of type [ty], clamped at 1, with the success rate
    taken to be 1 when there is no such decision. *)
Definition claimed_confidence (history : list decision) (ty : string) : Q :=
  let similar := filter (λ d, d_type d = ty) history in
  let success_rate :=
    match similar with
    | [] => 1%Q
    | _ :: _ =>
        (inject_Z (Z.of_nat (length (filter (λ d, counts_as_success d = true) similar)))
         / inject_Z (Z.of_nat (length similar)))%Q
    end in
  Qmin 1 (((7 # 10) + success_rate) / 2).

(** ** Vocabulary for further properties *)



(** No recorded decision carries a [success] key. *)
Definition no_success_flags (self : DecisionMakerAgent) : Prop :=
  Forall (λ d, d_success d = None) (decision_history self).

(** A step executor for tests that fails on the action [bad] with a
    result that has no [error] key. *)
Definition failing_silently_on (bad : string) : step_executor (list string) :=
  λ step parameters log,
    let log' := (log ++ [step_action step])%list in
    ({| sr_action := step_action step;
        sr_success := negb (String.eqb (step_action step) bad);
        sr_duration := 0; sr_result := None; sr_error := None |}, log').

(** Where every stored task stands: waiting in the queue as [pending],
    held by the processing loop as [in_progress], or finished. *)
Definition lifecycle (s : system) : Prop :=
  ∀ r t, objects (orch s) !! r = Some t →
    (r ∈ task_queue (orch s) ∧ status t = "pending" ∧ running s ≠ Some r)
    ∨ (running s = Some r ∧ status t = "in_progress" ∧ r ∉ task_queue (orch s))
    ∨ ((r ∉ task_queue (orch s)) ∧ running s ≠ Some r
       ∧ (status t = "completed" ∨ status t = "failed")).

(** The counters and maps of the system state that nothing ever fills. *)
Definition counters_idle (st : SystemState) : Prop :=
  active_tasks st = 0%nat ∧ completed_tasks st = 0%nat ∧ failed_tasks st = 0%nat
  ∧ performance_metrics st = ∅ ∧ resource_usage st = ∅.

(** The fields of a task that are set when it is created. *)
Definition same_identity (t t' : AutonomousTask) : Prop :=
  task_id t' = task_id t ∧ agent_type t' = agent_type t ∧ priority t' = priority t
  ∧ description t' = description t ∧ parameters t' = parameters t
  ∧ created_at t' = created_at t.

(** The agent after a series of [make_decision] calls, each with its
    context and clock reading, whatever each call returned. *)
Definition run_decisions (self : DecisionMakerAgent)
    (calls : list (gmap string pyval * Z)) : DecisionMakerAgent :=
  foldl (λ agent call, (make_decision agent call.1 call.2).2) self calls.

(** A task as its constructor leaves it: [pending], with no start or
    completion time, no result and no error message. *)
Definition untouched (t : AutonomousTask) : Prop :=
  status t = "pending" ∧ started_at t = None ∧ completed_at t = None
  ∧ result_payload t = None ∧ error_message t = None.

(** Every reference of the queue points to an untouched task. *)
Definition queue_untouched (o : Orchestrator) : Prop :=
  ∀ r, r ∈ task_queue o → ∃ t, objects o !! r = Some t ∧ untouched t.
(** * Properties *)

(** ** The model on concrete inputs *)

Example py_str_of_list :
  @py_str plain_float_repr (VList [VStr "low_health_score"; VInt (-3); VNone; VBool true])
  = "['low_health_score', -3, None, True]".
Proof. reflexivity. Qed.

Example str_repr_escapes :
  str_repr (String "009" "a\b") = "'\ta\\b'".
Proof. reflexivity. Qed.

Example decision_for_urgent_performance_issue :
  ∃ d self',
    make_decision {| decision_history := [] |}
      {[ "performance_issue" := VBool true; "urgency" := VFloat 2 ]} 100
    = (Ok d, self')
    ∧ decision_id d = "decision_100"
    ∧ d_type d = "performance_optimization"
    ∧ action (selected_option d) = "investigate_root_cause"
    ∧ (confidence d == 7 # 10)%Q
    ∧ reasoning d
      = "Selected investigate_root_cause because it has high impact and low cost."
        +:+ " High urgency situation requires immediate action."
        +:+ " Resource constraints favor cost-effective solutions."
    ∧ decision_history self' = [d].
Proof. eexists _, _. split; [reflexivity|]. by repeat split. Qed.

Example decision_with_text_urgency_raises :
  (make_decision {| decision_history := [] |}
     {[ "security_alert" := VBool true; "urgency" := VStr "high" ]} 100).1
  = Raise (TypeError "can't multiply sequence by non-int of type 'float'").
Proof. reflexivity. Qed.

Example healing_of_timeout :
  let rep := @diagnose_and_heal plain_float_repr
               {[ "symptoms" := VList [VStr "timeout"] ]} 1 2 3 in
  issue_type (rep_diagnosis rep) = "performance_degradation"
  ∧ head (strategies (rep_healing_plan rep))
    = Some {| strat_action := "analyze_performance"; strat_priority := 1 |}
  ∧ estimated_duration (rep_healing_plan rep) = 40
  ∧ strategies_executed (rep_healing_result rep) = 3%nat
  ∧ issue_id rep = VStr "unknown".
Proof. by repeat split. Qed.

Example monitoring_pass_under_high_load :
  let o := @monitoring_iteration plain_float_repr (init 0) 60 3 65 in
  (health_score (system_state o) == 98 # 100)%Q
  ∧ (system_load (system_state o) == 95 # 100)%Q
  ∧ task_queue o = [0%nat]
  ∧ (description <$> objects o) = ["Heal issue: high_load"]
  ∧ (priority <$> objects o) = [HIGH]
  ∧ (agent_type <$> objects o) = [SELF_HEALER].
Proof. by repeat split. Qed.

Example create_task_with_priority_text :
  (@create_task plain_float_repr (init 0)
     {| req_agent_type := "optimizer"; req_priority := "1";
        req_description := "tidy"; req_parameters := ∅ |} 5).1
  = Raise (HTTPException 400 "'1' is not a valid TaskPriority").
Proof. reflexivity. Qed.

(** ** The stable sort *)

Section sort_by.
Context {A : Type} (key : A → Z).

Lemma insert_by_perm x l : insert_by key x l ≡ₚ x :: l.
Proof.
  induction l as [|y l IH]; simpl; [done|].
  destruct (key x <=? key y); [done|].
  rewrite IH. apply Permutation_swap.
Qed.

Lemma sort_by_perm l : sort_by key l ≡ₚ l.
Proof.
  induction l as [|x l IH]; simpl; [done|].
  by rewrite insert_by_perm, IH.
Qed.

Lemma insert_by_sorted x l :
  StronglySorted (key_le key) l → StronglySorted (key_le key) (insert_by key x l).
Proof.
  induction 1 as [|y l Hl IH Hy]; simpl.
  - repeat constructor.
  - destruct (Z.leb_spec (key x) (key y)) as [Hxy|Hxy].
    + constructor; [by constructor|].
      constructor; [done|].
      eapply Forall_impl; [exact Hy|]. unfold key_le. intros; lia.
    + constructor; [done|].
      rewrite insert_by_perm. constructor; [unfold key_le; lia|done].
Qed.

Lemma sort_by_sorted l : StronglySorted (key_le key) (sort_by key l).
Proof.
  induction l as [|x l IH]; simpl; [constructor|].
  by apply insert_by_sorted.
Qed.

(** Stability: the elements of one key keep their relative order. *)
Lemma insert_by_filter k x l :
  filter (λ y, key y = k) (insert_by key x l)
  = filter (λ y, key y = k) (x :: l).
Proof.
  induction l as [|y l IH]; simpl; [done|].
  destruct (Z.leb_spec (key x) (key y)) as [Hxy|Hxy]; [done|].
  rewrite (filter_cons _ y (insert_by key x l)), IH.
  rewrite !filter_cons.
  repeat case_decide; try done; lia.
Qed.

Lemma sort_by_filter k l :
  filter (λ y, key y = k) (sort_by key l) = filter (λ y, key y = k) l.
Proof.
  induction l as [|x l IH]; simpl; [done|].
  by rewrite insert_by_filter, !filter_cons, IH.
Qed.

(** A sorted list is determined by the order of the elements within each
    key: every stable sort returns what [sort_by] returns. *)
Lemma stable_sorted_unique l1 l2 :
  StronglySorted (key_le key) l1 → StronglySorted (key_le key) l2 →
  (∀ k, filter (λ y, key y = k) l1 = filter (λ y, key y = k) l2) →
  l1 = l2.
Proof.
  intros H1. revert l2. induction H1 as [|x l1 Hs1 IH Hx]; intros l2 H2 Hf.
  - destruct l2 as [|y l2]; [done|].
    specialize (Hf (key y)). rewrite filter_nil, filter_cons in Hf.
    by case_decide.
  - destruct H2 as [|y l2 Hs2 Hy].
    { specialize (Hf (key x)). rewrite filter_nil, filter_cons in Hf.
      by case_decide. }
    assert (key x = key y) as Hk.
    { apply Z.le_antisymm.
      - pose proof (Hf (key y)) as Hfy. rewrite !filter_cons in Hfy.
        destruct (decide (key x = key y)) as [->|Hne]; [done|].
        destruct (decide (key y = key y)); [|done].
        assert (y ∈ filter (λ z, key z = key y) l1) as Hin
          by (rewrite Hfy; by left).
        apply list_elem_of_filter in Hin as [_ Hin].
        rewrite Forall_forall in Hx. by apply Hx.
      - pose proof (Hf (key x)) as Hfx. rewrite !filter_cons in Hfx.
        destruct (decide (key y = key x)) as [->|Hne]; [done|].
        destruct (decide (key x = key x)); [|done].
        assert (x ∈ filter (λ z, key z = key x) l2) as Hin
          by (rewrite <- Hfx; by left).
        apply list_elem_of_filter in Hin as [_ Hin].
        rewrite Forall_forall in Hy. by apply Hy. }
    pose proof (Hf (key x)) as Hfx. rewrite !filter_cons, <- Hk in Hfx.
    destruct (decide (key x = key x)); [|done].
    injection Hfx as <- Hfx. f_equal. apply IH; [done|].
    intros k. destruct (decide (k = key x)) as [->|Hne]; [done|].
    specialize (Hf k). rewrite !filter_cons in Hf.
    by destruct (decide (key x = k)); [congruence|].
Qed.

Lemma sort_by_is_the_stable_sort l l' :
  StronglySorted (key_le key) l' →
  (∀ k, filter (λ y, key y = k) l' = filter (λ y, key y = k) l) →
  l' = sort_by key l.
Proof.
  intros Hs Hf. apply stable_sorted_unique; [done|apply sort_by_sorted|].
  intros k. by rewrite Hf, sort_by_filter.
Qed.

Lemma sort_by_head_least r rest l x :
  sort_by key l = r :: rest → x ∈ l → key r ≤ key x.
Proof.
  intros Hs Hx.
  pose proof (sort_by_sorted l) as Hsorted. rewrite Hs in Hsorted.
  rewrite <- (sort_by_perm l), Hs in Hx.
  apply StronglySorted_inv in Hsorted as [_ Hall].
  apply elem_of_cons in Hx as [->|Hx]; [lia|].
  rewrite Forall_forall in Hall. by apply Hall.
Qed.

Lemma sort_by_head_first r rest l :
  sort_by key l = r :: rest →
  filter (λ y, key y = key r) l = r :: filter (λ y, key y = key r) rest.
Proof.
  intros Hs. rewrite <- (sort_by_filter (key r) l), Hs.
  rewrite filter_cons. by case_decide.
Qed.
End sort_by.

(** ** Invariants of the task queue *)

Lemma filter_ext_Forall {A : Type} (P Q : A → Prop)
    `{!∀ x, Decision (P x)} `{!∀ x, Decision (Q x)} (l : list A) :
  Forall (λ x, P x ↔ Q x) l → filter P l = filter Q l.
Proof.
  induction 1 as [|x l Hx _ IH]; [done|].
  rewrite !filter_cons, IH.
  destruct (decide (P x)), (decide (Q x)); tauto.
Qed.

Lemma sort_key_enqueue o t r :
  (r < length (objects o))%nat → sort_key (enqueue o t) r = sort_key o r.
Proof. intros Hr. unfold sort_key; simpl. by rewrite lookup_app_l. Qed.

Lemma status_of_enqueue o t r :
  (r < length (objects o))%nat → status_of (enqueue o t) r = status_of o r.
Proof. intros Hr. unfold status_of; simpl. by rewrite lookup_app_l. Qed.

Lemma status_of_enqueue_new o t :
  status_of (enqueue o t) (length (objects o)) = status t.
Proof.
  unfold status_of; simpl.
  rewrite lookup_app_r, Nat.sub_diag by lia. done.
Qed.

Lemma enqueue_wf o t : queue_wf o → queue_wf (enqueue o t).
Proof.
  intros [Hb Hn Hf]. split; simpl.
  - rewrite length_app; simpl. apply Forall_app; split.
    + eapply Forall_impl; [exact Hb|]. simpl; intros; lia.
    + repeat constructor. lia.
  - apply NoDup_app; split_and!; [done| |apply NoDup_singleton].
    intros r Hr ->%list_elem_of_singleton.
    rewrite Forall_forall in Hb. specialize (Hb _ Hr). lia.
  - intros k. rewrite filter_app.
    rewrite (filter_ext_Forall _ (λ r, sort_key o r = k) (task_queue o)).
    2:{ eapply Forall_impl; [exact Hb|]. simpl; intros r Hr.
        by rewrite sort_key_enqueue. }
    apply StronglySorted_app; split_and!; [|done|].
    + intros x1 x2 Hx1%list_elem_of_filter Hx2%list_elem_of_filter.
      destruct Hx1 as [_ Hx1], Hx2 as [_ Hx2].
      apply list_elem_of_singleton in Hx2 as ->.
      rewrite Forall_forall in Hb. by apply Hb.
    + rewrite filter_cons, filter_nil. case_decide; repeat constructor.
Qed.

Lemma enqueue_pending o t :
  queue_wf o → all_pending o → status t = "pending" → all_pending (enqueue o t).
Proof.
  intros [Hb _ _] Hp Ht. unfold all_pending; simpl.
  apply Forall_app; split.
  - unfold all_pending in Hp. rewrite Forall_forall in *. intros r Hr.
    rewrite status_of_enqueue; auto.
  - constructor; [|constructor]. by rewrite status_of_enqueue_new.
Qed.

Lemma dequeue_Some o r o' :
  dequeue o = Some (r, o') →
  ∃ rest, sort_by (sort_key o) (task_queue o) = r :: rest ∧
          o' = {| decision_maker := decision_maker o; objects := objects o;
                  task_queue := rest; system_state := system_state o |}.
Proof.
  unfold dequeue. destruct (task_queue o) eqn:Hq; [done|].
  rewrite <- Hq. destruct (sort_by _ _) as [|r' rest] eqn:Hs; [done|].
  intros [= -> <-]. eauto.
Qed.

Lemma dequeue_perm o r o' :
  dequeue o = Some (r, o') → task_queue o ≡ₚ r :: task_queue o'.
Proof.
  intros (rest & Hs & ->)%dequeue_Some; simpl.
  by rewrite <- Hs, sort_by_perm.
Qed.

Lemma dequeue_objects o r o' : dequeue o = Some (r, o') → objects o' = objects o.
Proof. by intros (rest & Hs & ->)%dequeue_Some. Qed.

Lemma dequeue_sort_key o r o' r' :
  dequeue o = Some (r, o') → sort_key o' r' = sort_key o r'.
Proof. by intros (rest & Hs & ->)%dequeue_Some. Qed.

Lemma dequeue_wf o r o' : queue_wf o → dequeue o = Some (r, o') → queue_wf o'.
Proof.
  intros [Hb Hn Hf] Hd.
  pose proof (dequeue_perm _ _ _ Hd) as Hperm.
  destruct (dequeue_Some _ _ _ Hd) as (rest & Hs & ->); simpl in *.
  split; simpl.
  - rewrite Hperm in Hb. by apply Forall_cons in Hb as [_ ?].
  - rewrite Hperm in Hn. by apply NoDup_cons in Hn as [_ ?].
  - intros k. specialize (Hf k).
    rewrite <- (sort_by_filter (sort_key o) k), Hs, filter_cons in Hf.
    unfold sort_key in *; simpl.
    case_decide; [by apply StronglySorted_inv in Hf as [? _]|done].
Qed.

Lemma dequeue_pending o r o' :
  all_pending o → dequeue o = Some (r, o') → all_pending o'.
Proof.
  intros Hp Hd. pose proof (dequeue_perm _ _ _ Hd) as Hperm.
  unfold all_pending in *. rewrite Hperm in Hp.
  apply Forall_cons in Hp as [_ Hp].
  eapply Forall_impl; [exact Hp|]. simpl; intros r' Hr'.
  unfold status_of in *. by rewrite (dequeue_objects _ _ _ Hd).
Qed.

Lemma dequeue_not_in o r o' :
  queue_wf o → dequeue o = Some (r, o') → r ∉ task_queue o'.
Proof.
  intros [_ Hn _] Hd. rewrite (dequeue_perm _ _ _ Hd) in Hn.
  by apply NoDup_cons in Hn as [? _].
Qed.

Lemma queue_wf_same o o' :
  objects o' = objects o → task_queue o' = task_queue o → queue_wf o → queue_wf o'.
Proof.
  intros Ho Hq [Hb Hn Hf]. split; unfold sort_key in *; rewrite ?Ho, ?Hq; done.
Qed.

Lemma all_pending_same o o' :
  objects o' = objects o → task_queue o' = task_queue o → all_pending o → all_pending o'.
Proof.
  intros Ho Hq Hp. unfold all_pending, status_of in *. by rewrite Ho, Hq.
Qed.

Lemma sort_key_update_task o r f r' :
  (∀ t, priority (f t) = priority t) →
  sort_key (update_task o r f) r' = sort_key o r'.
Proof.
  intros Hf. unfold sort_key; simpl.
  destruct (decide (r = r')) as [->|Hne].
  - rewrite list_lookup_alter_eq. destruct (objects o !! r'); simpl; [|done].
    by rewrite Hf.
  - by rewrite list_lookup_alter_ne.
Qed.

Lemma status_of_update_task_ne o r f r' :
  r ≠ r' → status_of (update_task o r f) r' = status_of o r'.
Proof. intros Hne. unfold status_of; simpl. by rewrite list_lookup_alter_ne. Qed.

Lemma update_task_wf o r f :
  (∀ t, priority (f t) = priority t) → queue_wf o → queue_wf (update_task o r f).
Proof.
  intros Hf [Hb Hn Hfifo]. split; simpl.
  - by rewrite length_alter.
  - done.
  - intros k.
    rewrite (filter_ext_Forall _ (λ r', sort_key o r' = k) (task_queue o)); [done|].
    apply Forall_forall; intros r' _. by rewrite sort_key_update_task.
Qed.

Lemma update_task_pending o r f :
  r ∉ task_queue o → all_pending o → all_pending (update_task o r f).
Proof.
  intros Hr Hp. unfold all_pending in *; simpl.
  rewrite Forall_forall in *. intros r' Hr'.
  rewrite status_of_update_task_ne; [auto|]. by intros ->.
Qed.

Lemma count_status_pending o st :
  all_pending o → st ≠ "pending" →
  filter (λ r, status_of o r = st) (task_queue o) = [].
Proof.
  unfold all_pending. intros Hp Hst.
  induction Hp as [|r l Hr _ IH]; [done|].
  rewrite filter_cons, IH. case_decide; [congruence|done].
Qed.

Lemma update_system_state_active o now h1 h2 :
  all_pending o →
  active_tasks (system_state (update_system_state o now h1 h2)) = 0%nat.
Proof. intros Hp; simpl. by rewrite count_status_pending. Qed.

Lemma update_system_state_completed o now h1 h2 :
  all_pending o →
  completed_tasks (system_state (update_system_state o now h1 h2))
  = completed_tasks (system_state o).
Proof. intros Hp; simpl. rewrite count_status_pending by done. simpl. lia. Qed.

Section producers.
Context `{!FloatRepr}.

Lemma foldl_enqueue_inv {X : Type} (mk : X → AutonomousTask) (l : list X) o :
  (∀ x, status (mk x) = "pending") →
  queue_wf o → all_pending o →
  let o' := foldl (λ acc x, enqueue acc (mk x)) o l in
  queue_wf o' ∧ all_pending o' ∧ system_state o' = system_state o
  ∧ decision_maker o' = decision_maker o
  ∧ ∀ r, (r < length (objects o))%nat → r ∈ task_queue o' → r ∈ task_queue o.
Proof.
  intros Hmk. revert o. induction l as [|x l IH]; intros o Hwf Hp; simpl.
  - done.
  - destruct (IH (enqueue o (mk x))) as (Hwf' & Hp' & Hst & Hdm & Hin).
    { by apply enqueue_wf. }
    { by apply enqueue_pending. }
    split_and!; try done.
    intros r Hr Hr'. apply Hin in Hr'; simpl in *.
    + apply elem_of_app in Hr' as [?|?%list_elem_of_singleton]; [done|lia].
    + rewrite length_app; simpl; lia.
Qed.

Lemma monitoring_iteration_inv o now h1 h2 :
  queue_wf o → all_pending o → completed_tasks (system_state o) = 0%nat →
  let o' := monitoring_iteration o now h1 h2 in
  queue_wf o' ∧ all_pending o' ∧ completed_tasks (system_state o') = 0%nat
  ∧ ∀ r, (r < length (objects o))%nat → r ∈ task_queue o' → r ∈ task_queue o.
Proof.
  intros Hwf Hp Hc. unfold monitoring_iteration.
  set (o1 := update_system_state o now h1 h2).
  assert (queue_wf o1) as Hwf1
    by (apply (queue_wf_same o); [reflexivity..|done]).
  assert (all_pending o1) as Hp1
    by (apply (all_pending_same o); [reflexivity..|done]).
  assert (completed_tasks (system_state o1) = 0%nat) as Hc1.
  { unfold o1. by rewrite update_system_state_completed. }
  destruct (foldl_enqueue_inv (λ issue, healing_task issue now)
              (detect_issues o1 now) o1) as (Hwf2 & Hp2 & Hst2 & _ & Hin2);
    [done..|].
  set (o2 := foldl _ o1 _) in *.
  assert (detect_optimizations o2 = []) as ->.
  { unfold detect_optimizations. rewrite Hst2, Hc1. by case_decide; [lia|]. }
  simpl. split_and!; [done|done|by rewrite Hst2|done].
Qed.

Lemma create_task_rejected o request now :
  ∃ detail, create_task o request now = (Raise (HTTPException 400 detail), o).
Proof.
  unfold create_task.
  destruct (AgentType_of_value _); simpl; eauto.
Qed.
End producers.

Section system_invariant.
Context `{!FloatRepr}.

Lemma execute_task_finish_shape o r c now :
  ∃ dm f,
    (∀ t, priority (f t) = priority t) ∧
    execute_task_finish o r c now = update_task (with_decision_maker o dm) r f.
Proof.
  unfold execute_task_finish.
  destruct (objects o !! r) as [t|] eqn:Ht.
  - destruct (dispatch (decision_maker o) t c) as [[payload|e] dm'].
    + by exists dm', (mark_completed payload now).
    + by exists dm', (mark_failed (exn_str e) now).
  - exists (decision_maker o), id. split; [done|].
    unfold update_task, with_decision_maker; simpl.
    rewrite list_alter_id by done. by destruct o.
Qed.

Lemma startup_inv now : sys_inv (startup now).
Proof.
  split; simpl; [|constructor|done|done].
  split; simpl; [constructor|constructor|intros; constructor].
Qed.

Lemma step_inv s s' : sys_inv s → step s s' → sys_inv s'.
Proof.
  intros [Hwf Hp Hrun Hc] Hstep.
  destruct Hstep as [s now h1 h2|s request now|s id a p descr params now
                    |s context now|s r o' now Hnone Hdeq|s r c now Hsome];
    simpl.
  - destruct (monitoring_iteration_inv (orch s) now h1 h2)
      as (Hwf' & Hp' & Hc' & Hin'); [done..|].
    split; simpl; try done.
    intros r Hr. destruct (Hrun r Hr) as [Hnin Hlt]. split.
    + intros Hr'. by apply Hnin, Hin'.
    + unfold monitoring_iteration.
      assert (∀ {X} (mk : X → AutonomousTask) l o,
                 (length (objects o) ≤
                  length (objects (foldl (λ acc x, enqueue acc (mk x)) o l)))%nat)
        as Hgrow.
      { intros X mk l. induction l as [|x l IH]; intros o; simpl; [done|].
        etrans; [|apply IH]. simpl. rewrite length_app. lia. }
      eapply Nat.lt_le_trans; [|apply Hgrow].
      eapply Nat.lt_le_trans; [|apply Hgrow]. done.
  - destruct (create_task_rejected (orch s) request now) as [detail ->].
    by split.
  - split; simpl.
    + by apply enqueue_wf.
    + by apply enqueue_pending.
    + intros r Hr. destruct (Hrun r Hr) as [Hnin Hlt]. split.
      * intros [?|?%list_elem_of_singleton]%elem_of_app; [done|lia].
      * rewrite length_app. lia.
    + done.
  - unfold api_make_decision.
    destruct (make_decision _ _ _) as [res dm']; simpl.
    split; simpl;
      [by apply (queue_wf_same (orch s))
      |by apply (all_pending_same (orch s))|done|done].
  - pose proof (dequeue_wf _ _ _ Hwf Hdeq) as Hwf'.
    pose proof (dequeue_pending _ _ _ Hp Hdeq) as Hp'.
    pose proof (dequeue_not_in _ _ _ Hwf Hdeq) as Hnin.
    split; simpl.
    + by apply update_task_wf.
    + by apply update_task_pending.
    + intros r' [= <-]. split; [done|].
      rewrite length_alter, (dequeue_objects _ _ _ Hdeq).
      destruct Hwf as [Hb _ _]. rewrite Forall_forall in Hb. apply Hb.
      rewrite (dequeue_perm _ _ _ Hdeq). by left.
    + by destruct (dequeue_Some _ _ _ Hdeq) as (rest & _ & ->).
  - destruct (execute_task_finish_shape (orch s) r c now) as (dm & f & Hf & ->).
    destruct (Hrun r Hsome) as [Hnin Hlt].
    split; simpl; [| |done|done].
    + apply update_task_wf; [done|]. by apply (queue_wf_same (orch s)).
    + apply update_task_pending; [done|]. by apply (all_pending_same (orch s)).
Qed.

(** A pass of the processing loop that nothing interrupts is a dequeue
    move followed by a completion move. *)
Lemma task_processing_iteration_steps s t_start c t_end :
  running s = None →
  rtc step s {| orch := task_processing_iteration (orch s) t_start c t_end;
                running := None |}.
Proof.
  intros Hrun. unfold task_processing_iteration.
  destruct (dequeue (orch s)) as [[r o']|] eqn:Hdeq.
  - eapply rtc_l; [by apply (step_dequeue s r o' t_start)|].
    apply rtc_once.
    apply (step_complete {| orch := execute_task_begin o' r t_start;
                            running := Some r |} r c t_end).
    done.
  - destruct s as [o run]; simpl in *. subst. apply rtc_refl.
Qed.

Lemma reachable_inv s : reachable s → sys_inv s.
Proof.
  intros [now Hrtc]. revert s Hrtc.
  apply rtc_ind_r; [apply startup_inv|].
  intros s s' _ Hstep IH. by eapply step_inv.
Qed.
End system_invariant.

(** ** The dequeue step (C1) *)

Section dequeue_order.
Context `{!FloatRepr}.

Lemma dequeue_is_Some o : task_queue o ≠ [] → is_Some (dequeue o).
Proof.
  intros Hne. unfold dequeue.
  destruct (task_queue o) as [|r0 q] eqn:Hq; [done|].
  rewrite <- Hq.
  destruct (sort_by _ _) as [|r rest] eqn:Hs; [|by eexists].
  pose proof (sort_by_perm (sort_key o) (task_queue o)) as Hperm.
  rewrite Hs, Hq in Hperm. by apply Permutation_nil_cons in Hperm.
Qed.

Lemma dequeue_least o r o' r' :
  dequeue o = Some (r, o') → r' ∈ task_queue o → sort_key o r ≤ sort_key o r'.
Proof.
  intros (rest & Hs & _)%dequeue_Some Hr'.
  by eapply sort_by_head_least.
Qed.

Lemma dequeue_earliest o r o' r' :
  queue_wf o → dequeue o = Some (r, o') → r' ∈ task_queue o →
  sort_key o r' = sort_key o r → (r ≤ r')%nat.
Proof.
  intros [_ _ Hfifo] (rest & Hs & _)%dequeue_Some Hr' Hkey.
  specialize (Hfifo (sort_key o r)).
  rewrite (sort_by_head_first _ _ _ _ Hs) in Hfifo.
  assert (r' ∈ filter (λ y, sort_key o y = sort_key o r) (task_queue o)) as Hin
    by (by apply list_elem_of_filter).
  rewrite (sort_by_head_first _ _ _ _ Hs) in Hin.
  apply StronglySorted_inv in Hfifo as [_ Hall].
  apply elem_of_cons in Hin as [->|Hin]; [done|].
  rewrite Forall_forall in Hall. specialize (Hall _ Hin). lia.
Qed.

Lemma drain_low_critical_medium now tL tC tM :
  priority tL = LOW → priority tC = CRITICAL → priority tM = MEDIUM →
  drain (enqueue (enqueue (enqueue (init now) tL) tC) tM) = [tC; tM; tL].
Proof.
  intros HL HC HM.
  destruct tL, tC, tM; simpl in HL, HC, HM; subst.
  reflexivity.
Qed.
End dequeue_order.

(** C1. In every reachable state of the system, a dequeue on a non-empty
    queue succeeds, and the reference [r] it removes is the least one of
    the queue in the order "lower priority value first, then earlier
    allocation": every other queued task has a strictly higher priority
    value, or the same value and a later reference. References are
    allocated by [enqueue] in increasing order, so "later reference" is
    "inserted later". Hence a task is never removed while a task of
    strictly lower priority value waits, whenever that one was appended.
    The removed task leaves the queue and the others stay. From the empty
    queue, appending tasks of priority Low, Critical, Medium and draining
    the queue yields them in the order Critical, Medium, Low. *)
Theorem dequeue_lowest_priority_then_fifo `{!FloatRepr} :
  (∀ s, reachable s →
     (task_queue (orch s) ≠ [] → is_Some (dequeue (orch s))) ∧
     ∀ r o', dequeue (orch s) = Some (r, o') →
       r ∈ task_queue (orch s)
       ∧ task_queue (orch s) ≡ₚ r :: task_queue o'
       ∧ (r ∉ task_queue o')
       ∧ objects o' = objects (orch s)
       ∧ (∀ r', r' ∈ task_queue (orch s) → r' ≠ r →
            sort_key (orch s) r < sort_key (orch s) r'
            ∨ (sort_key (orch s) r = sort_key (orch s) r' ∧ (r < r')%nat))
       ∧ (∀ r1 r2, r1 ∈ task_queue (orch s) → r2 ∈ task_queue (orch s) →
            sort_key (orch s) r1 < sort_key (orch s) r2 → r ≠ r2))
  ∧ (∀ now tL tC tM,
       priority tL = LOW → priority tC = CRITICAL → priority tM = MEDIUM →
       drain (enqueue (enqueue (enqueue (init now) tL) tC) tM) = [tC; tM; tL]).
Proof.
  split; [|apply drain_low_critical_medium].
  intros s [Hwf _ _ _]%reachable_inv.
  split; [apply dequeue_is_Some|].
  intros r o' Hdeq.
  pose proof (dequeue_perm _ _ _ Hdeq) as Hperm.
  split_and!.
  - rewrite Hperm. by left.
  - done.
  - by eapply dequeue_not_in.
  - by eapply dequeue_objects.
  - intros r' Hr' Hne.
    pose proof (dequeue_least _ _ _ _ Hdeq Hr') as Hle.
    destruct (decide (sort_key (orch s) r = sort_key (orch s) r')) as [Heq|Hneq];
      [|left; lia].
    right. split; [done|].
    pose proof (dequeue_earliest _ _ _ _ Hwf Hdeq Hr' (eq_sym Heq)). lia.
  - intros r1 r2 Hr1 Hr2 Hlt ->.
    pose proof (dequeue_least _ _ _ _ Hdeq Hr1). lia.
Qed.

Lemma dequeue_lowest_priority_then_fifo_witness :
  let tL := new_task "a" DECISION_MAKER LOW "first" ∅ 0 in
  let tC := new_task "b" SELF_HEALER CRITICAL "second" ∅ 1 in
  let tM := new_task "c" OPTIMIZER MEDIUM "third" ∅ 2 in
  let s := {| orch := enqueue (enqueue (enqueue (init 0) tL) tC) tM;
              running := None |} in
  @reachable plain_float_repr s
  ∧ objects (orch s) !! 1%nat = Some tC
  ∧ ∃ o', dequeue (orch s) = Some (1%nat, o') ∧ 1%nat ∈ task_queue (orch s).
Proof.
  intros tL tC tM s.
  assert (@reachable plain_float_repr s) as Hreach.
  { exists 0.
    eapply rtc_l; [apply (step_producer _ "a" DECISION_MAKER LOW "first" ∅ 0)|].
    eapply rtc_l; [apply (step_producer _ "b" SELF_HEALER CRITICAL "second" ∅ 1)|].
    eapply rtc_l; [apply (step_producer _ "c" OPTIMIZER MEDIUM "third" ∅ 2)|].
    apply rtc_refl. }
  split; [exact Hreach|]. split; [reflexivity|].
  destruct (dequeue (orch s)) as [[r o']|] eqn:Hdeq; [|discriminate Hdeq].
  assert (r = 1%nat) as -> by (vm_compute in Hdeq; congruence).
  exists o'. split; [reflexivity|].
  exact (proj1 (proj2 (proj1 (@dequeue_lowest_priority_then_fifo plain_float_repr)
                         s Hreach) 1%nat o' Hdeq)).
Defined.

(** ** Process automation (C3, C4) *)

Section automation.
Context `{!FloatRepr} {ES : Type} (exec : step_executor ES).

Lemma templates_unregistered s :
  s ≠ "deployment" → s ≠ "scaling" → s ≠ "backup" → templates !! s = None.
Proof.
  intros H1 H2 H3. unfold templates.
  rewrite !lookup_insert_ne by done. by apply lookup_singleton_ne.
Qed.

Lemma steps_loop_fail pid total pre step post parameters acc es rs es1 r es2 err :
  run_all exec pre parameters es = (rs, es1) →
  Forall (λ x, sr_success x = true) rs →
  exec step parameters es1 = (r, es2) →
  sr_success r = false →
  sr_error r = Some err →
  steps_loop exec pid total (pre ++ step :: post) parameters acc es
  = (Ok {| process_id := pid; success := false; error := Some err; results := None;
           completed_steps := length (acc ++ rs ++ [r]); total_steps := total |}, es2).
Proof.
  revert acc es rs.
  induction pre as [|p pre IH]; intros acc es rs Hrun Hall Hexec Hfail Herr; simpl in *.
  - injection Hrun as <- <-. rewrite Hexec, Hfail; simpl. by rewrite Herr.
  - destruct (exec p parameters es) as [r0 es0] eqn:Hp.
    destruct (run_all exec pre parameters es0) as [rs0 es0'] eqn:Hrest.
    injection Hrun as <- <-.
    apply Forall_cons in Hall as [Hr0 Hall].
    rewrite Hr0; simpl.
    rewrite (IH (acc ++ [r0])%list es0 rs0) by done.
    by rewrite <- (assoc_L (++) acc [r0]).
Qed.

Lemma steps_loop_success pid total todo parameters acc es rs es1 :
  run_all exec todo parameters es = (rs, es1) →
  Forall (λ x, sr_success x = true) rs →
  steps_loop exec pid total todo parameters acc es
  = (Ok {| process_id := pid; success := true; error := None;
           results := Some (acc ++ rs)%list;
           completed_steps := length (acc ++ rs); total_steps := total |}, es1).
Proof.
  revert acc es rs.
  induction todo as [|p todo IH]; intros acc es rs Hrun Hall; simpl in *.
  - injection Hrun as <- <-. by rewrite app_nil_r.
  - destruct (exec p parameters es) as [r0 es0] eqn:Hp.
    destruct (run_all exec todo parameters es0) as [rs0 es0'] eqn:Hrest.
    injection Hrun as <- <-.
    apply Forall_cons in Hall as [Hr0 Hall].
    rewrite Hr0; simpl.
    rewrite (IH (acc ++ [r0])%list es0 rs0) by done.
    by rewrite <- (assoc_L (++) acc [r0]).
Qed.

Lemma run_all_length todo parameters es :
  length (run_all exec todo parameters es).1 = length todo.
Proof.
  revert es. induction todo as [|p todo IH]; intros es; simpl; [done|].
  destruct (exec p parameters es) as [r0 es0].
  specialize (IH es0). destruct (run_all exec todo parameters es0). simpl in *. lia.
Qed.
End automation.

Lemma run_all_execute_step todo parameters :
  Forall (λ x, sr_success x = true) (run_all execute_step todo parameters ()).1
  ∧ (run_all execute_step todo parameters ()).2 = ().
Proof.
  induction todo as [|p todo [IH1 IH2]]; simpl; [by split|].
  destruct (run_all execute_step todo parameters ()) as [rs []]; simpl in *.
  split; [by constructor|done].
Qed.

(** With the step execution of the source, every registered template runs
    to its end. *)
Lemma execute_automation_registered_succeeds `{!FloatRepr} name template parameters now :
  templates !! name = Some template →
  ∃ oc, execute_automation execute_step (VStr name) parameters now () = (Ok oc, ())
        ∧ success oc = true
        ∧ completed_steps oc = length (steps template)
        ∧ total_steps oc = length (steps template).
Proof.
  intros Ht. unfold execute_automation; simpl. rewrite Ht.
  destruct (run_all_execute_step (steps template) parameters) as [Hall Hes].
  destruct (run_all execute_step (steps template) parameters ()) as [rs es] eqn:Hrun.
  simpl in *. subst es.
  rewrite (steps_loop_success execute_step _ _ _ parameters [] () rs ()) by done.
  eexists. split; [reflexivity|]. simpl. split_and!; try done.
  pose proof (run_all_length execute_step (steps template) parameters ()) as Hlen.
  by rewrite Hrun in Hlen.
Qed.

(** A process-automation task with an unregistered process type ends
    [failed], with the message of the [ValueError]. *)
Lemma execute_task_unknown_process_type `{!FloatRepr} o r t s t_start c t_end :
  objects o !! r = Some t →
  agent_type t = PROCESS_AUTOMATOR →
  parameters t !! "process_type" = Some (VStr s) →
  templates !! s = None →
  ∃ t', objects (execute_task o r t_start c t_end) !! r = Some t'
        ∧ status t' = "failed"
        ∧ result_payload t' = result_payload t
        ∧ error_message t' = Some ("Unknown process type: " +:+ s).
Proof.
  intros Ht Hagent Hpt Hs.
  unfold execute_task, execute_task_begin, execute_task_finish; simpl.
  rewrite list_lookup_alter_eq, Ht; simpl.
  unfold dispatch; simpl. rewrite Hagent, Hpt; simpl.
  unfold execute_automation; simpl. rewrite Hs; simpl.
  eexists. rewrite list_lookup_alter_eq, list_lookup_alter_eq, Ht; simpl.
  split; [reflexivity|]. done.
Qed.

(** C3, as the code has it. For a process type that is none of the
    registered templates, [execute_automation] does not return an outcome:
    it raises [ValueError] with the message "Unknown process type: " and
    the given name. No step is handed to the executor, and the
    orchestrator (task store, queue, system state) is as before. *)
Theorem execute_automation_unknown_type `{!FloatRepr} {ES : Type}
    (exec : step_executor ES) (o : Orchestrator) (process_type : string)
    (params : gmap string pyval) (now : Z) (es : ES) :
  process_type ≠ "deployment" → process_type ≠ "scaling" → process_type ≠ "backup" →
  api_execute_automation exec o process_type params now es
  = (Raise (ValueError ("Unknown process type: " +:+ process_type)), o, es).
Proof.
  intros H1 H2 H3.
  unfold api_execute_automation, execute_automation; simpl.
  by rewrite templates_unregistered.
Qed.

Lemma execute_automation_unknown_type_witness :
  @api_execute_automation plain_float_repr _ (failing_on "create_backup" "disk full")
    (init 0) "restore" ∅ 7 []
  = (Raise (ValueError "Unknown process type: restore"), init 0, []).
Proof.
  apply (@execute_automation_unknown_type plain_float_repr _
           (failing_on "create_backup" "disk full") (init 0) "restore" ∅ 7 []);
    discriminate.
Defined.

(** C3 as stated fails: for the unregistered type "restore" the call
    raises, so there is no returned outcome with [success = false]. *)
Lemma execute_automation_unknown_returns_nothing :
  templates !! "restore" = None
  ∧ (@execute_automation plain_float_repr _ execute_step (VStr "restore") ∅ 0 ()).1
    = Raise (ValueError "Unknown process type: restore")
  ∧ ¬ ∃ oc, (@execute_automation plain_float_repr _ execute_step
               (VStr "restore") ∅ 0 ()).1 = Ok oc
            ∧ success oc = false.
Proof.
  split; [reflexivity|]. split; [reflexivity|].
  intros (oc & Hoc & _). discriminate Hoc.
Qed.

(** C4. For a registered template, the steps are handed to the executor
    in order. If the steps before some step all succeed and that step
    reports failure with an error, the outcome has [success = false],
    that error, [completed_steps] the number of results gathered (the
    failed one included) and [total_steps] the length of the template,
    and the executor has not been handed any later step. If all steps
    succeed, the outcome has [success = true], all results, and
    [completed_steps = total_steps]. With an executor that fails on
    "create_backup" and only there, the backup template gives
    [success = false], [completed_steps = 2], [total_steps = 4]. *)
Theorem execute_automation_fail_fast `{!FloatRepr} {ES : Type} (exec : step_executor ES) :
  (∀ name template pre step post params now es rs es1 r es2 err,
     templates !! name = Some template →
     steps template = (pre ++ step :: post)%list →
     run_all exec pre params es = (rs, es1) →
     Forall (λ x, sr_success x = true) rs →
     exec step params es1 = (r, es2) →
     sr_success r = false →
     sr_error r = Some err →
     execute_automation exec (VStr name) params now es
     = (Ok {| process_id := "automation_" +:+ pretty now;
              success := false; error := Some err; results := None;
              completed_steps := length (rs ++ [r]);
              total_steps := length (steps template) |}, es2)
     ∧ length (rs ++ [r]) = S (length pre))
  ∧ (∀ name template params now es rs es1,
       templates !! name = Some template →
       run_all exec (steps template) params es = (rs, es1) →
       Forall (λ x, sr_success x = true) rs →
       execute_automation exec (VStr name) params now es
       = (Ok {| process_id := "automation_" +:+ pretty now;
                success := true; error := None; results := Some rs;
                completed_steps := length (steps template);
                total_steps := length (steps template) |}, es1))
  ∧ ((∀ step params es,
        sr_success (exec step params es).1 = false ↔ step_action step = "create_backup") →
     (∀ step params es,
        sr_success (exec step params es).1 = false →
        is_Some (sr_error (exec step params es).1)) →
     ∀ params now es, ∃ oc es',
       execute_automation exec (VStr "backup") params now es = (Ok oc, es')
       ∧ success oc = false ∧ is_Some (error oc)
       ∧ completed_steps oc = 2%nat ∧ total_steps oc = 4%nat).
Proof.
  split_and!.
  - intros name template pre step post params now es rs es1 r es2 err
      Ht Hsteps Hrun Hall Hexec Hfail Herr.
    split.
    + unfold execute_automation; simpl. rewrite Ht, Hsteps.
      by rewrite (steps_loop_fail exec _ _ pre step post params [] es rs es1 r es2 err).
    + pose proof (run_all_length exec pre params es) as Hlen.
      rewrite Hrun in Hlen; simpl in Hlen.
      rewrite length_app; simpl. lia.
  - intros name template params now es rs es1 Ht Hrun Hall.
    unfold execute_automation; simpl. rewrite Ht.
    rewrite (steps_loop_success exec _ _ _ params [] es rs es1) by done.
    pose proof (run_all_length exec (steps template) params es) as Hlen.
    rewrite Hrun in Hlen; simpl in Hlen. simpl. by rewrite Hlen.
  - intros Hiff Herr params now es.
    set (s1 := {| step_action := "prepare_backup"; step_timeout := 30 |}).
    set (s2 := {| step_action := "create_backup"; step_timeout := 600 |}).
    destruct (exec s1 params es) as [r1 es1] eqn:H1.
    destruct (exec s2 params es1) as [r2 es2] eqn:H2.
    assert (sr_success r1 = true) as Hr1.
    { destruct (sr_success r1) eqn:Hs; [done|].
      pose proof (proj1 (Hiff s1 params es)) as Hc. rewrite H1 in Hc.
      by specialize (Hc Hs). }
    assert (sr_success r2 = false) as Hr2.
    { pose proof (proj2 (Hiff s2 params es1)) as Hc. rewrite H2 in Hc. by apply Hc. }
    pose proof (Herr s2 params es1) as He. rewrite H2 in He. simpl in He.
    destruct (He Hr2) as [err Herr2].
    eexists _, es2. split.
    + unfold execute_automation; simpl.
      change (templates !! "backup") with
        (Some {| steps := [s1; s2;
                   {| step_action := "verify_backup"; step_timeout := 60 |};
                   {| step_action := "cleanup_old_backups"; step_timeout := 120 |}] |}).
      simpl. rewrite H1, Hr1; simpl. rewrite H2, Hr2; simpl. rewrite Herr2.
      reflexivity.
    + simpl. eauto.
Qed.

Lemma execute_automation_fail_fast_witness :
  @execute_automation plain_float_repr _ (failing_on "create_backup" "disk full")
    (VStr "backup") ∅ 7 []
  = (Ok {| process_id := "automation_7"; success := false;
           error := Some "disk full"; results := None;
           completed_steps := 2; total_steps := 4 |},
     ["prepare_backup"; "create_backup"]).
Proof.
  set (exec := failing_on "create_backup" "disk full").
  set (s1 := {| step_action := "prepare_backup"; step_timeout := 30 |}).
  set (s2 := {| step_action := "create_backup"; step_timeout := 600 |}).
  set (s3 := {| step_action := "verify_backup"; step_timeout := 60 |}).
  set (s4 := {| step_action := "cleanup_old_backups"; step_timeout := 120 |}).
  pose proof (proj1 (@execute_automation_fail_fast plain_float_repr _ exec)
                "backup" {| steps := [s1; s2; s3; s4] |} [s1] s2 [s3; s4] ∅ 7 []
                (run_all exec [s1] ∅ []).1 (run_all exec [s1] ∅ []).2
                (exec s2 ∅ ["prepare_backup"]).1 (exec s2 ∅ ["prepare_backup"]).2
                "disk full") as Hthm.
  destruct Hthm as [Hthm _].
  - reflexivity.
  - reflexivity.
  - reflexivity.
  - repeat constructor.
  - reflexivity.
  - reflexivity.
  - reflexivity.
  - exact Hthm.
Defined.

(** ** Decisions (C5, C6, C7) *)

Lemma make_decision_Ok self context now d self' :
  make_decision self context now = (Ok d, self') →
  d_type d = classify_decision_type context
  ∧ d_options d = generate_options context
  ∧ confidence d = calculate_confidence self (selected_option d) context
  ∧ d_success d = None
  ∧ decision_history self' = (decision_history self ++ [d])%list.
Proof.
  unfold make_decision.
  destruct (select_best_option _ _) as [best|e]; simpl; [|discriminate].
  destruct (generate_reasoning _ _) as [why|e]; simpl; [|discriminate].
  intros [= <- <-]. done.
Qed.

Lemma success_rate_bounds (k n : nat) :
  (k ≤ n)%nat → (0 < n)%nat →
  (0 <= inject_Z (Z.of_nat k) / inject_Z (Z.of_nat n)
   ∧ inject_Z (Z.of_nat k) / inject_Z (Z.of_nat n) <= 1)%Q.
Proof.
  intros Hkn Hn.
  assert (0 < inject_Z (Z.of_nat n))%Q as Hpos.
  { change 0%Q with (inject_Z 0). rewrite <- Zlt_Qlt. lia. }
  split.
  - apply Qle_shift_div_l; [done|]. rewrite Qmult_0_l.
    change 0%Q with (inject_Z 0). rewrite <- Zle_Qle. lia.
  - apply Qle_shift_div_r; [done|]. rewrite Qmult_1_l.
    rewrite <- Zle_Qle. lia.
Qed.

Lemma filter_length_le {A : Type} (P : A → Prop) `{!∀ x, Decision (P x)} (l : list A) :
  (length (filter P l) ≤ length l)%nat.
Proof.
  induction l as [|x l IH]; [done|].
  rewrite filter_cons. case_decide; simpl; lia.
Qed.

Lemma calculate_confidence_value self opt context :
  let similar := similar_decisions self context in
  let successes := filter (λ h, counts_as_success h = true) similar in
  (similar = [] → calculate_confidence self opt context == 7 # 10)%Q
  ∧ (similar ≠ [] →
     calculate_confidence self opt context
     == ((7 # 10) + inject_Z (Z.of_nat (length successes))
                    / inject_Z (Z.of_nat (length similar))) / 2)%Q.
Proof.
  intros similar successes. unfold calculate_confidence.
  fold similar. split.
  - intros ->. by apply Q.min_r.
  - intros Hne. destruct similar as [|h l] eqn:Hsim; [done|].
    apply Q.min_r.
    destruct (success_rate_bounds (length successes) (length (h :: l))) as [H0 H1].
    { apply filter_length_le. }
    { simpl; lia. }
    fold successes.
    generalize dependent (inject_Z (Z.of_nat (length successes))
                          / inject_Z (Z.of_nat (length (h :: l))))%Q.
    intros x _ Hx. apply Qle_shift_div_r; [done|]. lra.
Qed.

Lemma generate_options_no_entry context :
  classify_decision_type context ≠ "performance_optimization" →
  classify_decision_type context ≠ "security_response" →
  classify_decision_type context ≠ "resource_allocation" →
  generate_options context = [].
Proof.
  intros H1 H2 H3. unfold generate_options.
  by rewrite (proj2 (String.eqb_neq _ _) H1), (proj2 (String.eqb_neq _ _) H2),
    (proj2 (String.eqb_neq _ _) H3).
Qed.

Lemma classify_without_table_keys context :
  context !! "performance_issue" = None →
  context !! "security_alert" = None →
  context !! "resource_constraint" = None →
  classify_decision_type context
  = if decide (is_Some (context !! "business_opportunity"))
    then "business_strategy" else "operational_decision".
Proof.
  intros H1 H2 H3. unfold classify_decision_type. rewrite H1, H2, H3.
  repeat (case_decide; try by (exfalso; eapply is_Some_None; eauto)); done.
Qed.

(** C5. When the classified type of a context is none of the three types
    that have options, the option list is empty and [make_decision]
    raises [IndexError]; no decision is returned and none is recorded.
    This is the case of every context without the keys
    [performance_issue], [security_alert] and [resource_constraint]: it
    is classified [business_strategy] when it has [business_opportunity]
    and [operational_decision] otherwise. *)
Theorem make_decision_no_options_raises :
  (∀ self context now,
     classify_decision_type context ≠ "performance_optimization" →
     classify_decision_type context ≠ "security_response" →
     classify_decision_type context ≠ "resource_allocation" →
     generate_options context = []
     ∧ make_decision self context now
       = (Raise (IndexError "list index out of range"), self))
  ∧ (∀ self context now,
       context !! "performance_issue" = None →
       context !! "security_alert" = None →
       context !! "resource_constraint" = None →
       classify_decision_type context
       = (if decide (is_Some (context !! "business_opportunity"))
          then "business_strategy" else "operational_decision")
       ∧ generate_options context = []
       ∧ make_decision self context now
         = (Raise (IndexError "list index out of range"), self)).
Proof.
  assert (∀ self context now,
            classify_decision_type context ≠ "performance_optimization" →
            classify_decision_type context ≠ "security_response" →
            classify_decision_type context ≠ "resource_allocation" →
            generate_options context = []
            ∧ make_decision self context now
              = (Raise (IndexError "list index out of range"), self)) as Hgen.
  { intros self context now H1 H2 H3.
    pose proof (generate_options_no_entry context H1 H2 H3) as Hopts.
    split; [done|]. unfold make_decision. by rewrite Hopts. }
  split; [exact Hgen|].
  intros self context now H1 H2 H3.
  pose proof (classify_without_table_keys context H1 H2 H3) as Hcl.
  split; [done|].
  apply Hgen; rewrite Hcl; by case_decide.
Qed.

Lemma make_decision_no_options_raises_witness :
  make_decision {| decision_history := [] |}
    {[ "business_opportunity" := VStr "new market"; "urgency" := VFloat 2 ]} 5
  = (Raise (IndexError "list index out of range"), {| decision_history := [] |}).
Proof.
  apply (proj1 make_decision_no_options_raises); vm_compute; discriminate.
Defined.

(** C6, as the code has it. The confidence of a returned decision is the
    base value 0.7 when the history holds no decision of the same
    classified type. Otherwise it is the average of 0.7 and the success
    rate among those decisions, where a decision without a [success] flag
    counts as successful; the clamp at 1 never changes it, and it is then
    the value the specification gives. *)
Theorem make_decision_confidence self context now d self' :
  make_decision self context now = (Ok d, self') →
  let similar := filter (λ h, d_type h = d_type d) (decision_history self) in
  let successes := filter (λ h, counts_as_success h = true) similar in
  (similar = [] → confidence d == 7 # 10)%Q
  ∧ (similar ≠ [] →
     (confidence d
      == ((7 # 10) + inject_Z (Z.of_nat (length successes))
                     / inject_Z (Z.of_nat (length similar))) / 2)%Q
     ∧ (confidence d == claimed_confidence (decision_history self) (d_type d))%Q)
  ∧ (∀ h, d_success h = None → counts_as_success h = true).
Proof.
  intros (Hty & _ & Hconf & _)%make_decision_Ok similar successes.
  pose proof (calculate_confidence_value self (selected_option d) context) as Hval.
  unfold similar_decisions in Hval. rewrite <- Hty in Hval.
  fold similar in Hval. fold successes in Hval. simpl in Hval.
  destruct Hval as [Hnil Hcons]. rewrite Hconf.
  split_and!.
  - done.
  - intros Hne. split; [by apply Hcons|].
    unfold calculate_confidence, claimed_confidence, similar_decisions.
    rewrite <- Hty. fold similar. by destruct similar.
  - intros h Hh. unfold counts_as_success. by rewrite Hh.
Qed.

Lemma make_decision_confidence_witness :
  ∃ d self',
    make_decision {| decision_history := [] |} {[ "performance_issue" := VBool true ]} 0
    = (Ok d, self')
    ∧ (confidence d == 7 # 10)%Q.
Proof.
  eexists _, _. split; [reflexivity|].
  refine (proj1 (make_decision_confidence {| decision_history := [] |}
                   {[ "performance_issue" := VBool true ]} 0 _ _ eq_refl) eq_refl).
Defined.

(** C6 as stated fails: on the first call, with an empty history, the
    confidence is 0.7, while the specification's formula gives 0.85. *)
Lemma first_decision_confidence_is_base :
  ∃ d self',
    make_decision {| decision_history := [] |} {[ "performance_issue" := VBool true ]} 0
    = (Ok d, self')
    ∧ (confidence d == 7 # 10)%Q
    ∧ (claimed_confidence [] (d_type d) == 85 # 100)%Q
    ∧ ¬ (confidence d == claimed_confidence [] (d_type d))%Q.
Proof.
  eexists _, _. split; [reflexivity|].
  split; [reflexivity|]. split; [reflexivity|].
  intros H. vm_compute in H. discriminate H.
Qed.

(** C7. The confidence of every decision [make_decision] returns lies in
    the interval from 0 to 1, whatever the context and the history. *)
Theorem make_decision_confidence_in_unit_interval self context now d self' :
  make_decision self context now = (Ok d, self') →
  (0 <= confidence d ∧ confidence d <= 1)%Q.
Proof.
  intros (_ & _ & -> & _)%make_decision_Ok.
  pose proof (calculate_confidence_value self (selected_option d) context) as Hval.
  simpl in Hval. destruct Hval as [Hnil Hcons].
  destruct (similar_decisions self context) as [|h l] eqn:Hsim.
  - rewrite (Hnil eq_refl). split; lra.
  - rewrite (Hcons ltac:(done)).
    destruct (success_rate_bounds
                (length (filter (λ h, counts_as_success h = true) (h :: l)))
                (length (h :: l))) as [H0 H1].
    { apply filter_length_le. }
    { simpl; lia. }
    generalize dependent (inject_Z (Z.of_nat
      (length (filter (λ h, counts_as_success h = true) (h :: l))))
      / inject_Z (Z.of_nat (length (h :: l))))%Q.
    intros x _ H0 H1. split.
    + apply Qle_shift_div_l; [done|]. lra.
    + apply Qle_shift_div_r; [done|]. lra.
Qed.

Lemma make_decision_confidence_in_unit_interval_witness :
  let past :=
    {| decision_id := "decision_1"; d_type := "security_response";
       d_context := ∅; d_options := [];
       selected_option := {| action := "run_security_scan";
                             impact := "medium"; cost := "low" |};
       confidence := 7 # 10; reasoning := ""; d_timestamp := 1;
       d_success := Some (VBool false) |} in
  ∃ d self',
    make_decision {| decision_history := [past] |}
      {[ "security_alert" := VStr "intrusion" ]} 2
    = (Ok d, self')
    ∧ (0 <= confidence d ∧ confidence d <= 1)%Q.
Proof.
  intros past. eexists _, _. split; [reflexivity|].
  exact (make_decision_confidence_in_unit_interval {| decision_history := [past] |}
           {[ "security_alert" := VStr "intrusion" ]} 2 _ _ eq_refl).
Defined.

(** ** Substrings and the text of a list of symptoms *)

Lemma app_cons (c : ascii) (s t : string) : String c s +:+ t = String c (s +:+ t).
Proof. reflexivity. Qed.

Lemma app_empty_l (t : string) : "" +:+ t = t.
Proof. reflexivity. Qed.

Lemma app_empty_r (s : string) : s +:+ "" = s.
Proof. induction s as [|x s IH]; [done|]. by rewrite app_cons, IH. Qed.

Lemma append_assoc_s (a b c : string) : (a +:+ b) +:+ c = a +:+ b +:+ c.
Proof. induction a as [|x a IH]; [done|]. by rewrite !app_cons, IH. Qed.

Lemma prefix_spec (n h : string) : String.prefix n h = true ↔ ∃ b, h = n +:+ b.
Proof.
  revert h. induction n as [|x n IH]; intros [|y h]; simpl.
  - split; [intros _; by exists ""|done].
  - split; [intros _; by exists (String y h)|done].
  - split; [done|]. intros [b Hb]. rewrite app_cons in Hb. discriminate Hb.
  - destruct (ascii_dec x y) as [->|Hne].
    + rewrite IH. split; intros [b Hb]; exists b.
      * by rewrite app_cons, Hb.
      * rewrite app_cons in Hb. by injection Hb.
    + split; [done|]. intros [b Hb]. rewrite app_cons in Hb.
      injection Hb as -> _. done.
Qed.

(** [contains] is the substring test. *)
Lemma contains_spec (n h : string) :
  contains n h = true ↔ ∃ a b, h = a +:+ n +:+ b.
Proof.
  induction h as [|y h IH].
  - change (contains n "") with (if String.prefix n "" then true else false).
    destruct (String.prefix n "") eqn:Hp.
    + apply prefix_spec in Hp as [b Hb]. split; [|done]. intros _. by exists "", b.
    + split; [done|]. intros (a & b & Hab).
      destruct a; [|discriminate Hab]. rewrite app_empty_l in Hab.
      assert (String.prefix n "" = true) as Hp' by (apply prefix_spec; eauto).
      congruence.
  - change (contains n (String y h))
      with (if String.prefix n (String y h) then true else contains n h).
    destruct (String.prefix n (String y h)) eqn:Hp.
    + apply prefix_spec in Hp as [b Hb]. split; [|done]. intros _. by exists "", b.
    + rewrite IH. split.
      * intros (a & b & ->). by exists (String y a), b.
      * intros (a & b & Hab). destruct a as [|x a].
        -- rewrite app_empty_l in Hab.
           assert (String.prefix n (String y h) = true) as Hp'
             by (apply prefix_spec; eauto).
           congruence.
        -- rewrite app_cons in Hab. injection Hab as _ ->. eauto.
Qed.

Lemma contains_middle (n a h b : string) :
  contains n h = true → contains n (a +:+ h +:+ b) = true.
Proof.
  rewrite !contains_spec. intros (a' & b' & ->).
  exists (a +:+ a'), (b' +:+ b). by rewrite !append_assoc_s.
Qed.

Lemma escape_app (q : ascii) (a b : string) :
  escape q (a +:+ b) = escape q a +:+ escape q b.
Proof.
  induction a as [|x a IH]; [done|].
  rewrite app_cons. simpl. by rewrite IH, append_assoc_s.
Qed.

Lemma str_repr_contains (n x : string) :
  escape squote n = n → escape dquote n = n →
  contains n x = true → contains n (str_repr x) = true.
Proof.
  intros Hs Hd (a & b & ->)%contains_spec. unfold str_repr.
  assert (∀ q, escape q n = n →
               contains n (String q (escape q (a +:+ n +:+ b) +:+ String q "")) = true)
    as Hq.
  { intros q Hq. rewrite !escape_app, Hq. apply contains_spec.
    exists (String q (escape q a)), (escape q b +:+ String q "").
    by rewrite app_cons, !append_assoc_s. }
  destruct (str_mem squote _ && negb (str_mem dquote _)); by apply Hq.
Qed.

Lemma join_contains (n sep x : string) (l : list string) :
  x ∈ l → contains n x = true → contains n (join sep l) = true.
Proof.
  intros Hx Hn. induction l as [|y l IH]; [by apply elem_of_nil in Hx|].
  apply elem_of_cons in Hx as [->|Hx].
  - destruct l as [|z l]; [done|].
    change (join sep (y :: z :: l)) with (y +:+ sep +:+ join sep (z :: l)).
    rewrite <- (app_empty_l (y +:+ _)). by apply contains_middle.
  - specialize (IH Hx). destruct l as [|z l]; [by apply elem_of_nil in Hx|].
    change (join sep (y :: z :: l)) with (y +:+ sep +:+ join sep (z :: l)).
    rewrite <- append_assoc_s, <- (app_empty_r (join sep (z :: l))).
    by apply contains_middle.
Qed.

(** A symptom that contains a needle of plain characters shows in the
    text of the list of symptoms. *)
Lemma symptom_in_text `{!FloatRepr} (n x : string) (l : list pyval) :
  escape squote n = n → escape dquote n = n →
  VStr x ∈ l → contains n x = true → contains n (py_str (VList l)) = true.
Proof.
  intros Hs Hd Hx Hn.
  change (py_str (VList l)) with ("[" +:+ join ", " (map py_repr l) +:+ "]").
  apply (contains_middle n "[" _ "]").
  apply (join_contains n ", " (py_repr (VStr x))).
  - apply list_elem_of_fmap. by exists (VStr x).
  - simpl. by apply str_repr_contains.
Qed.

(** ** Diagnosis (C8) *)

(** C8, as the code has it. The rules are tried in a fixed order and
    "connection_refused" comes first. When the text of the symptoms
    contains "out_of_memory" (as it does when the symptoms are a list
    with a string that contains it) and does not contain
    "connection_refused", the diagnosis that [diagnose_and_heal] reports
    has issue type [resource_exhaustion], severity [critical] and
    confidence 0.95. *)
Theorem diagnose_out_of_memory `{!FloatRepr} (issue : gmap string pyval)
    (t_plan t_run t_end : Z) :
  let text := py_str (default (VList []) (issue !! "symptoms")) in
  (contains "out_of_memory" text = true
   ∨ ∃ l x, issue !! "symptoms" = Some (VList l) ∧ VStr x ∈ l
            ∧ contains "out_of_memory" x = true) →
  contains "connection_refused" text = false →
  let d := rep_diagnosis (diagnose_and_heal issue t_plan t_run t_end) in
  d = diagnose_issue issue
  ∧ issue_type d = "resource_exhaustion"
  ∧ severity d = "critical"
  ∧ diag_confidence d = 95 # 100.
Proof.
  intros text Hoom Hconn d. subst d; simpl.
  assert (contains "out_of_memory" text = true) as Htext.
  { destruct Hoom as [?|(l & x & Hl & Hx & Hc)]; [done|].
    unfold text. rewrite Hl. simpl default.
    by apply (symptom_in_text "out_of_memory" x l). }
  unfold diagnose_issue. fold text. by rewrite Hconn, Htext.
Qed.

Lemma diagnose_out_of_memory_witness :
  let issue : gmap string pyval :=
    {[ "id" := VStr "i-1";
       "symptoms" := VList [VStr "worker killed: out_of_memory"; VStr "timeout"] ]} in
  let d := rep_diagnosis (@diagnose_and_heal plain_float_repr issue 1 2 3) in
  issue_type d = "resource_exhaustion"
  ∧ severity d = "critical"
  ∧ diag_confidence d = 95 # 100.
Proof.
  intros issue d.
  exact (proj2 (@diagnose_out_of_memory plain_float_repr issue 1 2 3
                  (or_introl eq_refl) eq_refl)).
Defined.

(** C8 as stated fails: with the symptoms "connection_refused" and
    "out_of_memory" together, the diagnosis is [service_unavailable],
    [high], 0.9. *)
Lemma diagnose_out_of_memory_with_connection_refused :
  let issue : gmap string pyval :=
    {[ "symptoms" := VList [VStr "connection_refused"; VStr "out_of_memory"] ]} in
  let d := rep_diagnosis (@diagnose_and_heal plain_float_repr issue 1 2 3) in
  contains "out_of_memory"
    (@py_str plain_float_repr (default (VList []) (issue !! "symptoms"))) = true
  ∧ issue_type d = "service_unavailable"
  ∧ severity d = "high"
  ∧ diag_confidence d = 9 # 10
  ∧ ¬ (issue_type d = "resource_exhaustion" ∧ severity d = "critical"
       ∧ diag_confidence d = 95 # 100).
Proof.
  intros issue d. split_and!; try reflexivity.
  intros (Hty & _). vm_compute in Hty. discriminate Hty.
Qed.

(** ** System state (C2) *)

Lemma hash_residue_bounds (z m : Z) (x : Q) :
  0 ≤ z ≤ m →
  (x <= x + inject_Z z / 100 ∧ x + inject_Z z / 100 <= x + inject_Z m / 100)%Q.
Proof.
  intros [H0 Hm].
  assert (0 <= inject_Z z / 100)%Q as Hz.
  { apply Qle_shift_div_l; [done|]. rewrite Qmult_0_l.
    change 0%Q with (inject_Z 0). rewrite <- Zle_Qle. lia. }
  assert (inject_Z z / 100 <= inject_Z m / 100)%Q as Hzm.
  { unfold Qdiv. apply Qmult_le_compat_r; [|by vm_compute].
    rewrite <- Zle_Qle. lia. }
  split; lra.
Qed.

Lemma update_system_state_ranges o now h1 h2 :
  let st := system_state (update_system_state o now h1 h2) in
  (95 # 100 <= health_score st ∧ health_score st <= 104 # 100)%Q
  ∧ (3 # 10 <= system_load st ∧ system_load st <= 99 # 100)%Q.
Proof.
  simpl.
  pose proof (Z.mod_pos_bound h1 10 ltac:(lia)) as Hh1.
  pose proof (Z.mod_pos_bound h2 70 ltac:(lia)) as Hh2.
  destruct (hash_residue_bounds (h1 mod 10) 9 (95 # 100) ltac:(lia)) as [Ha Hb].
  destruct (hash_residue_bounds (h2 mod 70) 69 (3 # 10) ltac:(lia)) as [Hc Hd].
  split; split; try done.
  - apply (Qle_trans _ _ _ Hb). by vm_compute.
  - apply (Qle_trans _ _ _ Hd). by vm_compute.
Qed.

(** C2, where the code departs from it. A refresh with a first hash value
    of residue 9 modulo 10 leaves the health score at 1.04, above 1. The
    system load of every refresh lies between 0.3 and 0.99, hence in the
    interval from 0 to 1, and the health score is never below 0.95. *)
Theorem update_system_state_health_above_one o now h2 :
  let st := system_state (update_system_state o now 9 h2) in
  (health_score st == 104 # 100)%Q
  ∧ (1 < health_score st)%Q
  ∧ (0 <= system_load st ∧ system_load st <= 1)%Q.
Proof.
  intros st. split; [reflexivity|]. split; [reflexivity|].
  destruct (update_system_state_ranges o now 9 h2) as [_ [Hlo Hhi]].
  fold st in Hlo, Hhi. split; lra.
Qed.

(** ** Status of queued tasks (C9) *)

(** C9. In every reachable state, every reference in the queue points to
    a task of status [pending], and the count of completed tasks is 0.
    So a refresh of the system state computes [active_tasks = 0] and
    leaves [completed_tasks] as it is, and no optimization is detected,
    before or after a refresh. The producers append tasks of status
    [pending] only: the healing and optimization tasks of the monitoring
    loop are such, and task creation over REST leaves the state as it is
    or appends such a task. The task that a dequeue hands to
    [_execute_task] is no longer in the queue when its status is set. *)
Theorem queued_tasks_are_pending `{!FloatRepr} (s : system) :
  reachable s →
  (∀ r, r ∈ task_queue (orch s) →
     ∃ t, objects (orch s) !! r = Some t ∧ status t = "pending")
  ∧ completed_tasks (system_state (orch s)) = 0%nat
  ∧ (∀ now h1 h2,
       let st := system_state (update_system_state (orch s) now h1 h2) in
       active_tasks st = 0%nat
       ∧ completed_tasks st = completed_tasks (system_state (orch s))
       ∧ detect_optimizations (update_system_state (orch s) now h1 h2) = [])
  ∧ detect_optimizations (orch s) = []
  ∧ (∀ issue opt now,
       status (healing_task issue now) = "pending"
       ∧ status (optimization_task opt now) = "pending")
  ∧ (∀ request now,
       (create_task (orch s) request now).2 = orch s
       ∨ ∃ t, status t = "pending"
              ∧ (create_task (orch s) request now).2 = enqueue (orch s) t)
  ∧ (∀ r o' now,
       dequeue (orch s) = Some (r, o') →
       (r ∉ task_queue (execute_task_begin o' r now))
       ∧ all_pending (execute_task_begin o' r now)).
Proof.
  intros [Hwf Hp Hrun Hc]%reachable_inv.
  split_and!.
  - intros r Hr.
    destruct Hwf as [Hb _ _]. rewrite Forall_forall in Hb.
    unfold all_pending in Hp. rewrite Forall_forall in Hp.
    specialize (Hb r Hr). specialize (Hp r Hr).
    apply lookup_lt_is_Some in Hb as [t Ht].
    exists t. split; [done|]. unfold status_of in Hp. by rewrite Ht in Hp.
  - done.
  - intros now h1 h2 st. subst st.
    rewrite update_system_state_active, update_system_state_completed by done.
    split_and!; [done|done|].
    unfold detect_optimizations.
    rewrite update_system_state_completed, Hc by done.
    by case_decide; [lia|].
  - unfold detect_optimizations. rewrite Hc. by case_decide; [lia|].
  - done.
  - intros request now. left.
    by destruct (create_task_rejected (orch s) request now) as [detail ->].
  - intros r o' now Hdeq.
    pose proof (dequeue_not_in _ _ _ Hwf Hdeq) as Hnin.
    split; [done|].
    apply update_task_pending; [done|]. by eapply dequeue_pending.
Qed.

Lemma queued_tasks_are_pending_witness :
  let load_high := 65 in
  let s := {| orch := @monitoring_iteration plain_float_repr (init 0) 60 9 load_high;
              running := None |} in
  task_queue (orch s) = [0%nat]
  ∧ (∃ t, objects (orch s) !! 0%nat = Some t ∧ status t = "pending")
  ∧ completed_tasks (system_state (orch s)) = 0%nat.
Proof.
  intros load_high s.
  assert (@reachable plain_float_repr s) as Hreach.
  { exists 0. eapply rtc_l; [apply (step_monitor _ 60 9 load_high)|]. apply rtc_refl. }
  pose proof (@queued_tasks_are_pending plain_float_repr s Hreach) as (Hq & Hc & _).
  split; [reflexivity|]. split; [|exact Hc].
  apply Hq. by left.
Defined.

(** ** Tasks without an agent (C10) *)

(** C10. A task whose agent type is [system_monitor] or [optimizer] comes
    out of [_execute_task] with status [completed], the start and
    completion times set, no error message added, and a result that
    holds only the message "Unknown agent type: " followed by the agent
    type. The optimization tasks of the monitoring loop are of agent type
    [optimizer] and priority Medium, and so end this way. *)
Theorem execute_task_unknown_agent `{!FloatRepr} (o : Orchestrator) (r : nat)
    (t : AutonomousTask) (t_start : Z) (c : clock) (t_end : Z) :
  objects o !! r = Some t →
  agent_type t = SYSTEM_MONITOR ∨ agent_type t = OPTIMIZER →
  (∃ t', objects (execute_task o r t_start c t_end) !! r = Some t'
         ∧ status t' = "completed"
         ∧ started_at t' = Some t_start
         ∧ completed_at t' = Some t_end
         ∧ result_payload t'
           = Some (RError ("Unknown agent type: " +:+ agent_type_str (agent_type t)))
         ∧ error_message t' = error_message t)
  ∧ decision_maker (execute_task o r t_start c t_end) = decision_maker o
  ∧ task_queue (execute_task o r t_start c t_end) = task_queue o
  ∧ (∀ opt now,
       agent_type (optimization_task opt now) = OPTIMIZER
       ∧ priority (optimization_task opt now) = MEDIUM
       ∧ agent_type_str OPTIMIZER = "AgentType.OPTIMIZER").
Proof.
  intros Ht Hagent.
  unfold execute_task, execute_task_begin, execute_task_finish; simpl.
  rewrite list_lookup_alter_eq, Ht; simpl.
  assert (dispatch (decision_maker o) (mark_in_progress t_start t) c
          = (Ok (RError ("Unknown agent type: " +:+ agent_type_str (agent_type t))),
             decision_maker o)) as ->.
  { unfold dispatch; simpl. by destruct Hagent as [->| ->]. }
  simpl. split_and!; try done.
  eexists. rewrite list_lookup_alter_eq, list_lookup_alter_eq, Ht; simpl.
  split; [reflexivity|]. done.
Qed.

Lemma execute_task_unknown_agent_witness :
  let opt := [ ("type", VStr "task_cleanup") ] in
  let o := enqueue (init 0) (@optimization_task plain_float_repr opt 60) in
  ∃ t', objects (@execute_task plain_float_repr o 0 61 {| t_call := 61; t_exec := 62;
                                                          t_done := 63 |} 64)
          !! 0%nat = Some t'
        ∧ status t' = "completed"
        ∧ result_payload t' = Some (RError "Unknown agent type: AgentType.OPTIMIZER").
Proof.
  intros opt o.
  destruct (proj1 (@execute_task_unknown_agent plain_float_repr o 0
                     (@optimization_task plain_float_repr opt 60) 61
                     {| t_call := 61; t_exec := 62; t_done := 63 |} 64
                     eq_refl (or_intror eq_refl)))
    as (t' & Hlook & Hstatus & _ & _ & Hres & _).
  exists t'. split; [exact Hlook|]. split; [exact Hstatus|exact Hres].
Defined.

(** * Further properties of the code *)

(** ** Selection among options *)


Lemma make_decision_selected self context now d self' :
  make_decision self context now = (Ok d, self') →
  select_best_option (generate_options context) context = Ok (selected_option d).
Proof.
  unfold make_decision.
  destruct (select_best_option _ _) as [best|e]; simpl; [|discriminate].
  destruct (generate_reasoning _ _) as [why|e]; simpl; [|discriminate].
  by intros [= <- <-].
Qed.




Lemma generate_options_cases context :
  (classify_decision_type context = "performance_optimization"
   ∨ classify_decision_type context = "security_response"
   ∨ classify_decision_type context = "resource_allocation")
  ∨ generate_options context = [].
Proof.
  unfold generate_options.
  destruct (String.eqb_spec (classify_decision_type context) "performance_optimization");
    [by left; left|].
  destruct (String.eqb_spec (classify_decision_type context) "security_response");
    [by left; right; left|].
  destruct (String.eqb_spec (classify_decision_type context) "resource_allocation");
    [by left; right; right|].
  by right.
Qed.

Lemma select_best_option_nil context :
  select_best_option [] context = Raise (IndexError "list index out of range").
Proof. reflexivity. Qed.



(** ** When a decision is returned *)







(** ** Confidence over a series of decisions *)

Lemma make_decision_keeps_no_flags self context now :
  no_success_flags self → no_success_flags (make_decision self context now).2.
Proof.
  intros Hflags.
  destruct (make_decision self context now) as [[d|e] self'] eqn:Hmk; simpl.
  - apply make_decision_Ok in Hmk as (_ & _ & _ & Hd & Hhist).
    unfold no_success_flags. rewrite Hhist. apply Forall_app. split; [done|].
    by constructor.
  - unfold make_decision in Hmk.
    destruct (select_best_option _ _) as [best|?]; simpl in Hmk;
      [destruct (generate_reasoning _ _); simpl in Hmk|];
      try discriminate Hmk; by injection Hmk as _ <-.
Qed.

Lemma run_decisions_no_flags self calls :
  no_success_flags self → no_success_flags (run_decisions self calls).
Proof.
  revert self. induction calls as [|call calls IH]; intros self Hflags; [done|].
  apply IH. by apply make_decision_keeps_no_flags.
Qed.

Lemma successes_without_flags (l : list decision) :
  Forall (λ d, d_success d = None) l →
  filter (λ d, counts_as_success d = true) l = l.
Proof.
  induction 1 as [|d l Hd _ IH]; [done|].
  rewrite filter_cons, IH. unfold counts_as_success. rewrite Hd. by case_decide.
Qed.

(** X4. Whatever calls of [make_decision] came before on a new agent, a
    returned decision has confidence 0.7 when no decision of its type was
    recorded before and confidence 0.85 when one was: the recorded
    decisions never carry a [success] key, so the success rate is 1. *)
Theorem confidence_after_any_run calls context now d self' :
  let self := run_decisions {| decision_history := [] |} calls in
  make_decision self context now = (Ok d, self') →
  let similar := filter (λ h, d_type h = d_type d) (decision_history self) in
  (similar = [] → (confidence d == 7 # 10)%Q)
  ∧ (similar ≠ [] → (confidence d == 85 # 100)%Q)
  ∧ no_success_flags self'.
Proof.
  intros self Hmk similar.
  assert (no_success_flags self) as Hflags.
  { apply run_decisions_no_flags. constructor. }
  pose proof (make_decision_keeps_no_flags self context now Hflags) as Hflags'.
  rewrite Hmk in Hflags'. simpl in Hflags'.
  apply make_decision_Ok in Hmk as (Hty & _ & -> & _).
  pose proof (calculate_confidence_value self (selected_option d) context) as Hval.
  unfold similar_decisions in Hval. rewrite <- Hty in Hval.
  fold similar in Hval. simpl in Hval. destruct Hval as [Hnil Hcons].
  split_and!; [done| |done].
  intros Hne. rewrite (Hcons Hne).
  rewrite successes_without_flags.
  2:{ unfold similar. apply Forall_forall. intros h [_ Hh]%list_elem_of_filter.
      unfold no_success_flags in Hflags. rewrite Forall_forall in Hflags. auto. }
  assert (0 < inject_Z (Z.of_nat (length similar)))%Q as Hpos.
  { change 0%Q with (inject_Z 0). rewrite <- Zlt_Qlt.
    destruct similar; [done|simpl; lia]. }
  assert (inject_Z (Z.of_nat (length similar)) / inject_Z (Z.of_nat (length similar))
          == 1)%Q as ->.
  { apply Qmult_inv_r. intros Heq. rewrite Heq in Hpos. by apply Qlt_irrefl in Hpos. }
  reflexivity.
Qed.

Lemma confidence_after_any_run_witness :
  let calls : list (gmap string pyval * Z) :=
    [ ({[ "security_alert" := VBool true ]}, 1);
      ({[ "business_opportunity" := VBool true ]}, 2) ] in
  let self := run_decisions {| decision_history := [] |} calls in
  ∃ d self',
    make_decision self {[ "security_alert" := VStr "again" ]} 3 = (Ok d, self')
    ∧ (confidence d == 85 # 100)%Q.
Proof.
  intros calls self. eexists _, _. split; [reflexivity|].
  refine (proj1 (proj2 (confidence_after_any_run calls
                          {[ "security_alert" := VStr "again" ]} 3 _ _ eq_refl)) _).
  vm_compute. discriminate.
Defined.

(** ** What a returned outcome says about the steps that ran *)

Section outcome_facts.
Context `{!FloatRepr} {ES : Type} (exec : step_executor ES).

Lemma steps_loop_inv pid total todo parameters acc es oc es' :
  steps_loop exec pid total todo parameters acc es = (Ok oc, es') →
  ∃ j, (j ≤ length todo)%nat
       ∧ completed_steps oc = (length acc + j)%nat
       ∧ total_steps oc = total
       ∧ process_id oc = pid
       ∧ es' = (run_all exec (take j todo) parameters es).2
       ∧ (success oc = true →
          j = length todo
          ∧ results oc = Some (acc ++ (run_all exec (take j todo) parameters es).1)%list
          ∧ error oc = None
          ∧ Forall (λ x, sr_success x = true)
              (run_all exec (take j todo) parameters es).1)
       ∧ (success oc = false →
          ∃ pre r, (run_all exec (take j todo) parameters es).1 = (pre ++ [r])%list
                   ∧ Forall (λ x, sr_success x = true) pre
                   ∧ sr_success r = false
                   ∧ is_Some (sr_error r)
                   ∧ error oc = sr_error r
                   ∧ results oc = None).
Proof.
  revert acc es. induction todo as [|p todo IH]; intros acc es; simpl.
  - intros [= <- <-]. exists 0%nat. simpl.
    split_and!; try done; try lia.
    intros _. split_and!; try done. by rewrite app_nil_r.
  - destruct (exec p parameters es) as [r es1] eqn:Hp.
    destruct (sr_success r) eqn:Hr; simpl.
    + intros Hloop. apply IH in Hloop as (j & Hj & Hc & Ht & Hpid & Hes & Hok & Hfail).
      exists (S j). simpl. rewrite Hp.
      destruct (run_all exec (take j todo) parameters es1) as [rs es2] eqn:Hrun.
      simpl in *. rewrite length_app in Hc. simpl in Hc.
      split_and!; try done; try lia.
      * intros Hs. destruct (Hok Hs) as (-> & Hres & He & Hall).
        split_and!; try done.
        -- by rewrite Hres, <- (assoc_L (++) acc [r]).
        -- by constructor.
      * intros Hs. destruct (Hfail Hs) as (pre & r' & -> & Hpre & Hr' & Hsome & He & Hres).
        exists (r :: pre), r'. split_and!; try done. by constructor.
    + destruct (sr_error r) as [err|] eqn:Herr; [|discriminate].
      intros [= <- <-]. exists 1%nat. simpl. rewrite Hp. simpl.
      rewrite length_app. simpl.
      split_and!; try done; try lia.
      intros _. exists [], r. by split_and!; try done; rewrite ?Herr; eauto.
Qed.
End outcome_facts.

(** X5. Whatever the step executor, when [execute_automation] returns an
    outcome for a registered template, the executor has been handed the
    first [completed_steps] steps of the template, in order, and no
    other. [completed_steps] never exceeds [total_steps], which is the
    length of the template. With [success = true] all steps ran and all
    succeeded; with [success = false] the last step that ran reports
    failure, the ones before it succeeded, and the error of the outcome
    is that step's. *)
Theorem outcome_accounts_for_executed_steps `{!FloatRepr} {ES : Type}
    (exec : step_executor ES) name template parameters now es oc es' :
  templates !! name = Some template →
  execute_automation exec (VStr name) parameters now es = (Ok oc, es') →
  let ran := run_all exec (take (completed_steps oc) (steps template)) parameters es in
  (completed_steps oc ≤ total_steps oc)%nat
  ∧ total_steps oc = length (steps template)
  ∧ es' = ran.2
  ∧ length ran.1 = completed_steps oc
  ∧ (success oc = true →
     completed_steps oc = total_steps oc ∧ results oc = Some ran.1
     ∧ Forall (λ x, sr_success x = true) ran.1)
  ∧ (success oc = false →
     ∃ pre r, ran.1 = (pre ++ [r])%list
              ∧ Forall (λ x, sr_success x = true) pre
              ∧ sr_success r = false
              ∧ error oc = sr_error r ∧ is_Some (error oc)
              ∧ results oc = None).
Proof.
  intros Ht Hrun ran.
  unfold execute_automation in Hrun; simpl in Hrun. rewrite Ht in Hrun.
  apply steps_loop_inv in Hrun as (j & Hj & Hc & Htot & _ & Hes & Hok & Hfail).
  simpl in Hc. subst j.
  assert (length ran.1 = completed_steps oc) as Hlen.
  { unfold ran. rewrite run_all_length, length_take. lia. }
  split_and!; try done; [lia| |].
  - intros Hs. destruct (Hok Hs) as (Hk & Hres & _ & Hall).
    split_and!; try done. lia.
  - intros Hs. destruct (Hfail Hs) as (pre & r & Hran & Hpre & Hr & Hsome & He & Hres).
    exists pre, r. split_and!; try done. by rewrite He.
Qed.

Lemma outcome_accounts_for_executed_steps_witness :
  ∃ oc log,
    @execute_automation plain_float_repr _ (failing_on "run_tests" "2 tests failed")
      (VStr "deployment") ∅ 7 [] = (Ok oc, log)
    ∧ completed_steps oc = 3%nat
    ∧ log = ["validate_config"; "build_images"; "run_tests"].
Proof.
  eexists _, _. split; [reflexivity|]. split; [reflexivity|].
  exact (proj1 (proj2 (proj2
    (@outcome_accounts_for_executed_steps plain_float_repr _
       (failing_on "run_tests" "2 tests failed") "deployment" _ ∅ 7 [] _ _
       eq_refl eq_refl)))).
Defined.

Lemma steps_loop_missing_error {ES : Type} (exec : step_executor ES)
    pid total pre step post parameters acc es rs es1 r es2 :
  run_all exec pre parameters es = (rs, es1) →
  Forall (λ x, sr_success x = true) rs →
  exec step parameters es1 = (r, es2) →
  sr_success r = false →
  sr_error r = None →
  steps_loop exec pid total (pre ++ step :: post) parameters acc es
  = (Raise (KeyError "error"), es2).
Proof.
  revert acc es rs.
  induction pre as [|p pre IH]; intros acc es rs Hrun Hall Hexec Hfail Herr; simpl in *.
  - injection Hrun as <- <-. rewrite Hexec, Hfail; simpl. by rewrite Herr.
  - destruct (exec p parameters es) as [r0 es0] eqn:Hp.
    destruct (run_all exec pre parameters es0) as [rs0 es0'] eqn:Hrest.
    injection Hrun as <- <-.
    apply Forall_cons in Hall as [Hr0 Hall].
    rewrite Hr0; simpl. by apply (IH _ es0 rs0).
Qed.

(** X6. When the first step result that reports failure has no [error]
    key, [execute_automation] returns no outcome: reading the key raises
    [KeyError], whose text is ['error'] in quotes. The steps after it are
    not run. *)
Theorem failure_without_error_key_raises `{!FloatRepr} {ES : Type}
    (exec : step_executor ES) name template pre step post parameters now es rs es1 r es2 :
  templates !! name = Some template →
  steps template = (pre ++ step :: post)%list →
  run_all exec pre parameters es = (rs, es1) →
  Forall (λ x, sr_success x = true) rs →
  exec step parameters es1 = (r, es2) →
  sr_success r = false →
  sr_error r = None →
  execute_automation exec (VStr name) parameters now es = (Raise (KeyError "error"), es2)
  ∧ exn_str (KeyError "error") = "'error'".
Proof.
  intros Ht Hsteps Hrun Hall Hexec Hfail Herr. split; [|reflexivity].
  unfold execute_automation; simpl. rewrite Ht, Hsteps.
  by apply (steps_loop_missing_error exec _ _ pre step post parameters [] es rs es1 r).
Qed.

Lemma failure_without_error_key_raises_witness :
  @execute_automation plain_float_repr _ (failing_silently_on "provision_resources")
    (VStr "scaling") ∅ 7 []
  = (Raise (KeyError "error"),
     ["analyze_load"; "calculate_requirements"; "provision_resources"]).
Proof.
  set (exec := failing_silently_on "provision_resources").
  set (s1 := {| step_action := "analyze_load"; step_timeout := 30 |}).
  set (s2 := {| step_action := "calculate_requirements"; step_timeout := 15 |}).
  set (s3 := {| step_action := "provision_resources"; step_timeout := 120 |}).
  set (s4 := {| step_action := "update_configuration"; step_timeout := 30 |}).
  set (s5 := {| step_action := "verify_scaling"; step_timeout := 60 |}).
  pose proof (@failure_without_error_key_raises plain_float_repr _ exec
                "scaling" {| steps := [s1; s2; s3; s4; s5] |} [s1; s2] s3 [s4; s5] ∅ 7 []
                (run_all exec [s1; s2] ∅ []).1 (run_all exec [s1; s2] ∅ []).2
                (exec s3 ∅ ["analyze_load"; "calculate_requirements"]).1
                (exec s3 ∅ ["analyze_load"; "calculate_requirements"]).2) as Hthm.
  destruct Hthm as [Hthm _].
  - reflexivity.
  - reflexivity.
  - reflexivity.
  - repeat constructor.
  - reflexivity.
  - reflexivity.
  - reflexivity.
  - exact Hthm.
Defined.

(** ** Process automation as shipped *)

Lemma run_all_execute_step_results todo parameters :
  (run_all execute_step todo parameters ()).1
  = map (λ step, {| sr_action := step_action step; sr_success := true;
                    sr_duration := 1;
                    sr_result := Some ("Successfully executed " +:+ step_action step);
                    sr_error := None |}) todo.
Proof.
  induction todo as [|p todo IH]; simpl; [done|].
  destruct (run_all execute_step todo parameters ()) as [rs es]. simpl in *.
  by rewrite IH.
Qed.

(** X7. With the step execution that the source has, [execute_automation]
    on a registered template always returns [success = true] with
    [completed_steps = total_steps], and one successful result for each
    step of the template, in order, naming the step's action; it never
    reports a failure. *)
Theorem shipped_automation_always_succeeds `{!FloatRepr} name template parameters now :
  templates !! name = Some template →
  ∃ oc rs,
    execute_automation execute_step (VStr name) parameters now () = (Ok oc, ())
    ∧ success oc = true ∧ error oc = None
    ∧ completed_steps oc = length (steps template)
    ∧ total_steps oc = length (steps template)
    ∧ results oc = Some rs
    ∧ map sr_action rs = map step_action (steps template)
    ∧ Forall (λ x, sr_success x = true ∧ sr_error x = None) rs.
Proof.
  intros Ht. unfold execute_automation; simpl. rewrite Ht.
  destruct (run_all_execute_step (steps template) parameters) as [Hall Hes].
  pose proof (run_all_execute_step_results (steps template) parameters) as Hres.
  destruct (run_all execute_step (steps template) parameters ()) as [rs es] eqn:Hrun.
  simpl in *. subst es.
  rewrite (steps_loop_success execute_step _ _ _ parameters [] () rs ()) by done.
  eexists _, rs. split; [reflexivity|]. simpl.
  pose proof (run_all_length execute_step (steps template) parameters ()) as Hlen.
  rewrite Hrun in Hlen. simpl in Hlen.
  split_and!; try done.
  - rewrite Hres, map_map. done.
  - rewrite Hres. apply Forall_forall. intros x Hx.
    apply list_elem_of_fmap in Hx as (step & -> & _). done.
Qed.

Lemma shipped_automation_always_succeeds_witness :
  ∃ oc rs,
    @execute_automation plain_float_repr _ execute_step (VStr "backup") ∅ 3 ()
    = (Ok oc, ())
    ∧ success oc = true ∧ error oc = None
    ∧ completed_steps oc = 4%nat ∧ total_steps oc = 4%nat
    ∧ results oc = Some rs
    ∧ map sr_action rs
      = ["prepare_backup"; "create_backup"; "verify_backup"; "cleanup_old_backups"]
    ∧ Forall (λ x, sr_success x = true ∧ sr_error x = None) rs.
Proof.
  exact (@shipped_automation_always_succeeds plain_float_repr "backup" _ ∅ 3 eq_refl).
Defined.

(** ** What [_execute_task] leaves behind *)

Section execute_task_facts.
Context `{!FloatRepr}.

Lemma execute_task_lookup o r t t_start c t_end :
  objects o !! r = Some t →
  objects (execute_task o r t_start c t_end) !! r
  = Some (match (dispatch (decision_maker o) (mark_in_progress t_start t) c).1 with
          | Ok payload => mark_completed payload t_end (mark_in_progress t_start t)
          | Raise e => mark_failed (exn_str e) t_end (mark_in_progress t_start t)
          end).
Proof.
  intros Ht. unfold execute_task, execute_task_begin, execute_task_finish; simpl.
  rewrite list_lookup_alter_eq, Ht; simpl.
  destruct (dispatch _ _ _) as [[payload|e] dm']; simpl;
    by rewrite list_lookup_alter_eq, list_lookup_alter_eq, Ht.
Qed.

Lemma execute_task_lookup_ne o r r' t_start c t_end :
  r ≠ r' →
  objects (execute_task o r t_start c t_end) !! r' = objects o !! r'.
Proof.
  intros Hne. unfold execute_task, execute_task_begin, execute_task_finish; simpl.
  destruct (alter _ r (objects o) !! r) as [t|]; simpl.
  - destruct (dispatch _ _ _) as [[payload|e] dm']; simpl;
      by rewrite !list_lookup_alter_ne.
  - by rewrite list_lookup_alter_ne.
Qed.

Lemma execute_task_frame o r t_start c t_end :
  task_queue (execute_task o r t_start c t_end) = task_queue o
  ∧ system_state (execute_task o r t_start c t_end) = system_state o
  ∧ length (objects (execute_task o r t_start c t_end)) = length (objects o).
Proof.
  unfold execute_task, execute_task_begin, execute_task_finish; simpl.
  destruct (alter _ r (objects o) !! r) as [t|]; simpl.
  - destruct (dispatch _ _ _) as [[payload|e] dm']; simpl;
      by rewrite !length_alter.
  - by rewrite !length_alter.
Qed.
End execute_task_facts.

(** X8. [_execute_task] always brings its task to an end: afterwards the
    status is [completed] or [failed], never [pending] or [in_progress],
    and the start and completion times are set. A [completed] task has a
    result and its error message as before; a [failed] task has an error
    message and its result as before. The fields given at creation are
    unchanged, every other task is untouched, and so are the queue and
    the system state. *)
Theorem execute_task_ends_task `{!FloatRepr} o r t t_start c t_end :
  objects o !! r = Some t →
  let o' := execute_task o r t_start c t_end in
  (∃ t', objects o' !! r = Some t'
         ∧ same_identity t t'
         ∧ started_at t' = Some t_start ∧ completed_at t' = Some t_end
         ∧ ((status t' = "completed" ∧ is_Some (result_payload t')
             ∧ error_message t' = error_message t)
            ∨ (status t' = "failed" ∧ is_Some (error_message t')
               ∧ result_payload t' = result_payload t)))
  ∧ (∀ r', r' ≠ r → objects o' !! r' = objects o !! r')
  ∧ task_queue o' = task_queue o
  ∧ system_state o' = system_state o.
Proof.
  intros Ht o'. subst o'.
  destruct (execute_task_frame o r t_start c t_end) as (Hq & Hst & _).
  split_and!; try done.
  - rewrite (execute_task_lookup o r t) by done.
    destruct (dispatch _ _ _).1 as [payload|e]; eexists; (split; [reflexivity|]);
      simpl; split_and!; try done; [left|right]; by eauto.
  - intros r' Hne. by apply execute_task_lookup_ne.
Qed.

Lemma execute_task_ends_task_witness :
  let t := new_task "task_1" DECISION_MAKER HIGH "decide"
             {[ "business_opportunity" := VBool true ]} 1 in
  let o := enqueue (init 0) t in
  ∃ t', objects (@execute_task plain_float_repr o 0 2
                   {| t_call := 2; t_exec := 3; t_done := 4 |} 5) !! 0%nat = Some t'
        ∧ status t' = "failed"
        ∧ error_message t' = Some "list index out of range"
        ∧ completed_at t' = Some 5.
Proof.
  intros t o.
  destruct (proj1 (@execute_task_ends_task plain_float_repr o 0 t 2
                     {| t_call := 2; t_exec := 3; t_done := 4 |} 5 eq_refl))
    as (t' & Hlook & _ & _ & Hend & _).
  exists t'. split; [exact Hlook|].
  vm_compute in Hlook. injection Hlook as <-. by split_and!.
Defined.

(** X9. A process-automation task is [completed], with an outcome of
    [success = true] over all steps, when its [process_type] parameter
    names a registered template. It is [failed], with the message
    "Unknown process type: " and the name, when the parameter is another
    string, and with "Unknown process type: None" when the parameter is
    missing. *)
Theorem process_automation_task_outcome `{!FloatRepr} o r t t_start c t_end :
  objects o !! r = Some t →
  agent_type t = PROCESS_AUTOMATOR →
  ∃ t', objects (execute_task o r t_start c t_end) !! r = Some t'
        ∧ (∀ s template,
             parameters t !! "process_type" = Some (VStr s) →
             templates !! s = Some template →
             status t' = "completed"
             ∧ ∃ oc, result_payload t' = Some (ROutcome oc)
                     ∧ success oc = true
                     ∧ completed_steps oc = length (steps template)
                     ∧ total_steps oc = length (steps template))
        ∧ (∀ s,
             parameters t !! "process_type" = Some (VStr s) →
             templates !! s = None →
             status t' = "failed"
             ∧ error_message t' = Some ("Unknown process type: " +:+ s))
        ∧ (parameters t !! "process_type" = None →
           status t' = "failed"
           ∧ error_message t' = Some "Unknown process type: None").
Proof.
  intros Ht Hagent. eexists. split; [by apply execute_task_lookup|].
  unfold dispatch; simpl. rewrite Hagent.
  split_and!.
  - intros s template Hpt Hs. rewrite Hpt; simpl.
    destruct (execute_automation_registered_succeeds s template (parameters t)
                (t_call c) Hs) as (oc & -> & Hok & Hc & Htot).
    simpl. split; [done|]. by exists oc.
  - intros s Hpt Hs. rewrite Hpt; simpl.
    unfold execute_automation; simpl. rewrite Hs. done.
  - intros Hpt. rewrite Hpt; simpl. done.
Qed.

Lemma process_automation_task_outcome_witness :
  let t := new_task "task_1" PROCESS_AUTOMATOR LOW "roll out" ∅ 1 in
  let o := enqueue (init 0) t in
  ∃ t', objects (@execute_task plain_float_repr o 0 2
                   {| t_call := 2; t_exec := 3; t_done := 4 |} 5) !! 0%nat = Some t'
        ∧ status t' = "failed"
        ∧ error_message t' = Some "Unknown process type: None".
Proof.
  intros t o.
  destruct (@process_automation_task_outcome plain_float_repr o 0 t 2
              {| t_call := 2; t_exec := 3; t_done := 4 |} 5 eq_refl eq_refl)
    as (t' & Hlook & _ & _ & Hnone).
  exists t'. split; [exact Hlook|]. exact (Hnone eq_refl).
Defined.

(** ** Diagnosis: the first rule, and issues without symptoms *)

Section diagnosis_facts.
Context `{!FloatRepr}.

Lemma diagnose_issue_without_symptoms (issue : gmap string pyval) :
  issue !! "symptoms" = None ∨ issue !! "symptoms" = Some (VList []) →
  diagnose_issue issue
  = {| issue_type := "unknown"; severity := "medium";
       root_cause := "Unable to determine root cause"; diag_confidence := 3 # 10 |}.
Proof. intros [Hs|Hs]; unfold diagnose_issue; by rewrite Hs. Qed.

Lemma plan_for_unknown d now :
  issue_type d = "unknown" →
  strategies (create_healing_plan d now)
  = [ {| strat_action := "investigate_issue"; strat_priority := 1 |};
      {| strat_action := "collect_logs"; strat_priority := 2 |} ]
  ∧ estimated_duration (create_healing_plan d now) = 40.
Proof. intros Hd. unfold create_healing_plan. rewrite Hd. by split. Qed.
End diagnosis_facts.

(** X10. A symptom that contains "connection_refused" decides the
    diagnosis whatever else the symptoms hold: when the symptoms are a
    list with such a string, or a text that contains it, the diagnosis is
    [service_unavailable], [high], 0.9, and the plan starts with
    [restart_service]. *)
Theorem connection_refused_always_wins `{!FloatRepr} (issue : gmap string pyval)
    (t_plan t_run t_end : Z) :
  (contains "connection_refused" (py_str (default (VList []) (issue !! "symptoms"))) = true
   ∨ ∃ l x, issue !! "symptoms" = Some (VList l) ∧ VStr x ∈ l
            ∧ contains "connection_refused" x = true) →
  let rep := diagnose_and_heal issue t_plan t_run t_end in
  issue_type (rep_diagnosis rep) = "service_unavailable"
  ∧ severity (rep_diagnosis rep) = "high"
  ∧ diag_confidence (rep_diagnosis rep) = 9 # 10
  ∧ map strat_action (strategies (rep_healing_plan rep))
    = ["restart_service"; "check_dependencies"; "verify_configuration"]
  ∧ estimated_duration (rep_healing_plan rep) = 25.
Proof.
  intros Hsym rep.
  assert (contains "connection_refused"
            (py_str (default (VList []) (issue !! "symptoms"))) = true) as Htext.
  { destruct Hsym as [?|(l & x & Hl & Hx & Hc)]; [done|].
    rewrite Hl. simpl default.
    by apply (symptom_in_text "connection_refused" x l). }
  subst rep. unfold diagnose_and_heal, diagnose_issue. rewrite Htext. by simpl.
Qed.

Lemma connection_refused_always_wins_witness :
  let issue : gmap string pyval :=
    {[ "symptoms" := VList [VStr "out_of_memory"; VStr "db: connection_refused";
                            VStr "timeout"] ]} in
  let rep := @diagnose_and_heal plain_float_repr issue 1 2 3 in
  issue_type (rep_diagnosis rep) = "service_unavailable"
  ∧ estimated_duration (rep_healing_plan rep) = 25.
Proof.
  intros issue rep.
  destruct (@connection_refused_always_wins plain_float_repr issue 1 2 3
              (or_introl eq_refl)) as (Hty & _ & _ & _ & Hdur).
  by split.
Defined.

(** X11. The healing tasks that the monitoring loop creates carry the
    detected issue under the key [issue], while the diagnosis reads the
    key [symptoms] of the parameters themselves. So whatever the issue,
    such a task ends [completed] with the diagnosis [unknown] (medium,
    0.3), the fallback plan [investigate_issue], [collect_logs] of 40
    minutes, and the issue id [unknown]. *)
Theorem monitoring_healing_task_is_diagnosed_unknown `{!FloatRepr}
    o r (issue : list (string * pyval)) now t_start c t_end :
  objects o !! r = Some (healing_task issue now) →
  ∃ t' rep,
    objects (execute_task o r t_start c t_end) !! r = Some t'
    ∧ status t' = "completed"
    ∧ result_payload t' = Some (RReport rep)
    ∧ issue_id rep = VStr "unknown"
    ∧ issue_type (rep_diagnosis rep) = "unknown"
    ∧ severity (rep_diagnosis rep) = "medium"
    ∧ diag_confidence (rep_diagnosis rep) = 3 # 10
    ∧ map strat_action (strategies (rep_healing_plan rep))
      = ["investigate_issue"; "collect_logs"]
    ∧ estimated_duration (rep_healing_plan rep) = 40
    ∧ strategies_executed (rep_healing_result rep) = 2%nat.
Proof.
  intros Ht.
  assert (parameters (healing_task issue now) !! "symptoms" = None) as Hsym
    by (by apply lookup_singleton_ne).
  assert (parameters (healing_task issue now) !! "id" = None) as Hid
    by (by apply lookup_singleton_ne).
  eexists _, _. split; [by apply execute_task_lookup|].
  unfold dispatch; simpl. split; [done|]. split; [reflexivity|].
  unfold diagnose_and_heal; simpl.
  change ({[ "issue" := VDict issue ]} : gmap string pyval)
    with (parameters (healing_task issue now)).
  rewrite Hid, (diagnose_issue_without_symptoms _ (or_introl Hsym)).
  by split_and!.
Qed.

Lemma monitoring_healing_task_is_diagnosed_unknown_witness :
  let o := @monitoring_iteration plain_float_repr (init 0) 60 3 65 in
  ∃ t' rep,
    description <$> objects o !! 0%nat = Some "Heal issue: high_load"
    ∧ objects (@execute_task plain_float_repr o 0 61
                 {| t_call := 61; t_exec := 62; t_done := 63 |} 64) !! 0%nat = Some t'
    ∧ result_payload t' = Some (RReport rep)
    ∧ issue_type (rep_diagnosis rep) = "unknown".
Proof.
  intros o.
  destruct (@monitoring_healing_task_is_diagnosed_unknown plain_float_repr o 0
              [ ("type", VStr "high_load"); ("severity", VStr "high");
                ("symptoms", VList [VStr "high_system_load"]);
                ("timestamp", VStr (isoformat 60)) ] 60 61
              {| t_call := 61; t_exec := 62; t_done := 63 |} 64 eq_refl)
    as (t' & rep & Hlook & _ & Hres & _ & Hty & _).
  exists t', rep. split; [reflexivity|]. by split_and!.
Defined.

(** ** What a pass of the monitoring loop appends *)

Lemma foldl_enqueue_shape {X : Type} (mk : X → AutonomousTask) (l : list X) o :
  let o' := foldl (λ acc x, enqueue acc (mk x)) o l in
  objects o' = (objects o ++ map mk l)%list
  ∧ task_queue o' = (task_queue o ++ seq (length (objects o)) (length l))%list
  ∧ system_state o' = system_state o
  ∧ decision_maker o' = decision_maker o.
Proof.
  revert o. induction l as [|x l IH]; intros o; simpl.
  - by rewrite !app_nil_r.
  - destruct (IH (enqueue o (mk x))) as (Hobj & Hq & Hst & Hdm).
    rewrite Hobj, Hq, Hst, Hdm. simpl.
    rewrite length_app, <- !(assoc_L (++)). simpl.
    by rewrite Nat.add_1_r.
Qed.

Lemma load_threshold (z : Z) :
  (9 # 10 < (3 # 10) + inject_Z z / 100)%Q ↔ 60 < z.
Proof.
  unfold Qlt, Qplus, Qdiv, Qmult, Qinv, inject_Z; simpl. lia.
Qed.

Lemma health_never_low (z : Z) :
  0 ≤ z → ¬ ((95 # 100) + inject_Z z / 100 < 8 # 10)%Q.
Proof.
  unfold Qlt, Qplus, Qdiv, Qmult, Qinv, inject_Z; simpl. lia.
Qed.

Lemma detect_issues_after_refresh o now h1 h2 :
  detect_issues (update_system_state o now h1 h2) now
  = if decide (60 < h2 mod 70)
    then [ [ ("type", VStr "high_load"); ("severity", VStr "high");
             ("symptoms", VList [VStr "high_system_load"]);
             ("timestamp", VStr (isoformat now)) ] ]
    else [].
Proof.
  unfold detect_issues; simpl.
  destruct (Qlt_le_dec _ (8 # 10)) as [Hlow|_].
  { exfalso. apply (health_never_low (h1 mod 10)); [|done].
    apply Z.mod_pos_bound. lia. }
  destruct (Qlt_le_dec (9 # 10) _) as [Hhigh|Hnot]; case_decide; try done.
  - by apply load_threshold in Hhigh.
  - exfalso. apply (Qle_not_lt _ _ Hnot). by apply load_threshold.
Qed.

(** X12. A pass of the monitoring loop appends at most two tasks, at the
    end of the queue and in this order: one High-priority self-healing
    task for the issue [high_load], exactly when the second hash value
    has a residue above 60 modulo 70 (a load above 0.9), and one
    Medium-priority optimizer task, exactly when the refreshed count of
    completed tasks exceeds 100. Since the refreshed health score is
    never below 0.95, no task for [health_degradation] is ever created.
    The tasks already stored and queued stay as they are. *)
Theorem monitoring_pass_appends `{!FloatRepr} o now h1 h2 :
  let o' := monitoring_iteration o now h1 h2 in
  let healing :=
    if decide (60 < h2 mod 70)
    then [ healing_task [ ("type", VStr "high_load"); ("severity", VStr "high");
                          ("symptoms", VList [VStr "high_system_load"]);
                          ("timestamp", VStr (isoformat now)) ] now ]
    else [] in
  let optimizing :=
    if decide (100 < completed_tasks (system_state (update_system_state o now h1 h2)))%nat
    then [ optimization_task [ ("type", VStr "task_cleanup");
                               ("description", VStr "Clean up completed tasks");
                               ("potential_benefit", VStr "memory_optimization") ] now ]
    else [] in
  objects o' = (objects o ++ healing ++ optimizing)%list
  ∧ task_queue o'
    = (task_queue o ++ seq (length (objects o)) (length (healing ++ optimizing)))%list
  ∧ system_state o' = system_state (update_system_state o now h1 h2)
  ∧ Forall (λ t, status t = "pending" ∧ created_at t = now
                 ∧ description t ≠ "Heal issue: health_degradation")
      (healing ++ optimizing).
Proof.
  intros o' healing optimizing. subst o'. unfold monitoring_iteration.
  rewrite detect_issues_after_refresh.
  set (o1 := update_system_state o now h1 h2).
  set (issues := if decide (60 < h2 mod 70) then _ else _).
  destruct (foldl_enqueue_shape (λ issue, healing_task issue now) issues o1)
    as (Hobj2 & Hq2 & Hst2 & _).
  set (o2 := foldl _ o1 issues) in *.
  assert (map (λ issue, healing_task issue now) issues = healing) as Hheal.
  { unfold issues, healing. by destruct (decide (60 < h2 mod 70)). }
  assert (detect_optimizations o2
          = if decide (100 < completed_tasks (system_state o1))%nat
            then [ [ ("type", VStr "task_cleanup");
                     ("description", VStr "Clean up completed tasks");
                     ("potential_benefit", VStr "memory_optimization") ] ]
            else []) as Hopt.
  { unfold detect_optimizations. by rewrite Hst2. }
  rewrite Hopt.
  set (opts := if decide (100 < completed_tasks (system_state o1))%nat then _ else _).
  destruct (foldl_enqueue_shape (λ opt, optimization_task opt now) opts o2)
    as (Hobj3 & Hq3 & Hst3 & _).
  assert (map (λ opt, optimization_task opt now) opts = optimizing) as Hoptm.
  { unfold opts, optimizing, o1.
    by destruct (decide (100 < completed_tasks
                           (system_state (update_system_state o now h1 h2)))%nat). }
  rewrite Hobj3, Hq3, Hst3, Hobj2, Hq2, Hst2, Hheal, Hoptm.
  assert (length issues = length healing) as -> by (by rewrite <- Hheal, length_map).
  assert (length opts = length optimizing) as -> by (by rewrite <- Hoptm, length_map).
  split_and!.
  - by rewrite <- (assoc_L (++)).
  - rewrite !length_app, <- (assoc_L (++)), seq_app. done.
  - done.
  - unfold healing, optimizing. apply Forall_app. split.
    + destruct (decide (60 < h2 mod 70)); repeat constructor; done.
    + destruct (decide (100 < completed_tasks
                          (system_state (update_system_state o now h1 h2)))%nat);
        repeat constructor; done.
Qed.

(** ** The life of a task in the running system *)

Section lifecycle_facts.
Context `{!FloatRepr}.

Lemma monitoring_iteration_shape o now h1 h2 :
  ∃ new,
    objects (monitoring_iteration o now h1 h2) = (objects o ++ new)%list
    ∧ task_queue (monitoring_iteration o now h1 h2)
      = (task_queue o ++ seq (length (objects o)) (length new))%list
    ∧ Forall (λ t, status t = "pending") new
    ∧ system_state (monitoring_iteration o now h1 h2)
      = system_state (update_system_state o now h1 h2)
    ∧ decision_maker (monitoring_iteration o now h1 h2) = decision_maker o.
Proof.
  unfold monitoring_iteration.
  set (o1 := update_system_state o now h1 h2).
  set (issues := detect_issues o1 now).
  destruct (foldl_enqueue_shape (λ issue, healing_task issue now) issues o1)
    as (Hobj2 & Hq2 & Hst2 & Hdm2).
  set (o2 := foldl _ o1 issues) in *.
  set (opts := detect_optimizations o2).
  destruct (foldl_enqueue_shape (λ opt, optimization_task opt now) opts o2)
    as (Hobj3 & Hq3 & Hst3 & Hdm3).
  exists (map (λ issue, healing_task issue now) issues
          ++ map (λ opt, optimization_task opt now) opts)%list.
  rewrite Hobj3, Hq3, Hst3, Hdm3, Hobj2, Hq2, Hst2, Hdm2.
  split_and!; try done.
  - by rewrite <- (assoc_L (++)).
  - rewrite !length_app, !length_map, <- (assoc_L (++)), seq_app. done.
  - apply Forall_app. split; apply Forall_forall;
      intros t (x & -> & _)%list_elem_of_fmap; done.
Qed.

Lemma execute_task_finish_facts o r t c now :
  objects o !! r = Some t →
  (∃ t', objects (execute_task_finish o r c now) !! r = Some t'
         ∧ same_identity t t'
         ∧ (status t' = "completed" ∨ status t' = "failed"))
  ∧ (∀ r', r' ≠ r → objects (execute_task_finish o r c now) !! r' = objects o !! r')
  ∧ task_queue (execute_task_finish o r c now) = task_queue o
  ∧ system_state (execute_task_finish o r c now) = system_state o
  ∧ length (objects (execute_task_finish o r c now)) = length (objects o).
Proof.
  intros Ht. unfold execute_task_finish. rewrite Ht.
  destruct (dispatch _ _ _) as [[payload|e] dm']; simpl;
    rewrite list_lookup_alter_eq, Ht, length_alter; simpl;
    (split_and!; try done;
     [eexists; split; [reflexivity|]; split; [done|]; eauto
     |intros r' Hne; by rewrite list_lookup_alter_ne]).
Qed.

(** Appending new pending tasks keeps every stored task where it stands. *)
Lemma lifecycle_append s o' new :
  lifecycle s →
  Forall (λ r, r < length (objects (orch s)))%nat (task_queue (orch s)) →
  (∀ r, running s = Some r → (r < length (objects (orch s)))%nat) →
  objects o' = (objects (orch s) ++ new)%list →
  task_queue o'
  = (task_queue (orch s) ++ seq (length (objects (orch s))) (length new))%list →
  Forall (λ t, status t = "pending") new →
  lifecycle {| orch := o'; running := running s |}.
Proof.
  intros Hlife Hbound Hrun Hobj Hq Hnew r t; simpl. rewrite Hobj, Hq.
  intros Hlook.
  destruct (decide (r < length (objects (orch s)))%nat) as [Hlt|Hge].
  - rewrite lookup_app_l in Hlook by done.
    assert (r ∈ (task_queue (orch s)
                 ++ seq (length (objects (orch s))) (length new))%list
            ↔ r ∈ task_queue (orch s)) as Hiff.
    { rewrite elem_of_app, elem_of_seq. split; [intros [?|?]; [done|lia]|by left]. }
    rewrite Hiff. by apply Hlife.
  - left. rewrite lookup_app_r in Hlook by lia.
    split_and!.
    + apply elem_of_app. right. apply elem_of_seq.
      apply lookup_lt_Some in Hlook. lia.
    + rewrite Forall_forall in Hnew. apply Hnew.
      by eapply list_elem_of_lookup_2.
    + intros Heq. apply Hrun in Heq. lia.
Qed.

Lemma step_lifecycle s s' : sys_inv s → lifecycle s → step s s' → lifecycle s'.
Proof.
  intros [[Hb Hn Hf] Hp Hrun Hc] Hlife Hstep.
  assert (∀ r, running s = Some r → (r < length (objects (orch s)))%nat) as Hrun'
    by (intros r Hr; by apply Hrun).
  destruct Hstep as [s now h1 h2|s request now|s id a p descr params now
                    |s context now|s r o' now Hnone Hdeq|s r c now Hsome].
  - destruct (monitoring_iteration_shape (orch s) now h1 h2)
      as (new & Hobj & Hq & Hnew & _).
    by apply (lifecycle_append s _ new).
  - destruct (create_task_rejected (orch s) request now) as [detail ->]. simpl.
    by destruct s.
  - apply (lifecycle_append s _ [new_task id a p descr params now]); try done.
    by repeat constructor.
  - unfold api_make_decision. destruct (make_decision _ _ _) as [res dm']; simpl.
    exact Hlife.
  - pose proof (dequeue_perm _ _ _ Hdeq) as Hperm.
    pose proof (dequeue_objects _ _ _ Hdeq) as Hobj.
    assert (NoDup (r :: task_queue o')) as Hnd by (by rewrite <- Hperm).
    apply NoDup_cons in Hnd as [Hnin _].
    intros r' t'; simpl. rewrite Hobj.
    destruct (decide (r = r')) as [<-|Hne].
    + rewrite list_lookup_alter_eq.
      destruct (objects (orch s) !! r) as [t|]; simpl; [|done].
      intros [= <-]. right; left. by split_and!.
    + rewrite list_lookup_alter_ne by done. intros Hlook.
      destruct (Hlife r' t' Hlook) as [(Hin & Hst & _)|[(Hr & _)|(Hin & _ & Hst)]].
      * left. split_and!; try done; [|congruence].
        rewrite Hperm in Hin. apply elem_of_cons in Hin as [?|?]; [congruence|done].
      * congruence.
      * right; right. split_and!; try done; [|congruence].
        intros Hin'. apply Hin. rewrite Hperm. by right.
  - destruct (Hrun r Hsome) as [Hnin Hlt].
    apply lookup_lt_is_Some in Hlt as [t Ht].
    destruct (execute_task_finish_facts (orch s) r t c now Ht)
      as ((t1 & Ht1 & _ & Hend) & Hother & Hq & _).
    intros r' t'; simpl. rewrite Hq.
    destruct (decide (r = r')) as [<-|Hne].
    + rewrite Ht1. intros [= <-]. right; right. by split_and!.
    + rewrite Hother by done. intros Hlook.
      destruct (Hlife r' t' Hlook) as [(Hin & Hst & _)|[(Hr & _)|(Hin & _ & Hst)]].
      * left. by split_and!.
      * congruence.
      * right; right. by split_and!.
Qed.

Lemma startup_lifecycle now : lifecycle (startup now).
Proof. intros r t Hlook. simpl in Hlook. by rewrite lookup_nil in Hlook. Qed.

Lemma reachable_lifecycle s : reachable s → lifecycle s.
Proof.
  intros [now Hrtc]. revert s Hrtc.
  apply rtc_ind_r; [apply startup_lifecycle|].
  intros s s' Hpre Hstep IH.
  eapply step_lifecycle; [|done|done].
  apply reachable_inv. by exists now.
Qed.

Lemma reachable_step s s' : reachable s → step s s' → reachable s'.
Proof. intros [now Hrtc] Hstep. exists now. by eapply rtc_r. Qed.
End lifecycle_facts.

(** X13. In every reachable state each stored task is in exactly one of
    three places: in the queue with status [pending]; held by the
    processing loop with status [in_progress], and out of the queue; or
    out of the queue and not held, with status [completed] or [failed].
    So at most one task is [in_progress] at a time, and a task in the
    queue is never one that has been started. *)
Theorem task_is_queued_running_or_finished `{!FloatRepr} (s : system) r t :
  reachable s →
  objects (orch s) !! r = Some t →
  ((r ∈ task_queue (orch s) ∧ status t = "pending" ∧ running s ≠ Some r)
   ∨ (running s = Some r ∧ status t = "in_progress" ∧ r ∉ task_queue (orch s))
   ∨ ((r ∉ task_queue (orch s)) ∧ running s ≠ Some r
      ∧ (status t = "completed" ∨ status t = "failed")))
  ∧ (∀ r2 t2, objects (orch s) !! r2 = Some t2 →
       status t = "in_progress" → status t2 = "in_progress" → r2 = r).
Proof.
  intros Hreach Hlook.
  pose proof (reachable_lifecycle s Hreach) as Hlife.
  split; [by apply Hlife|].
  intros r2 t2 Hlook2 Hst Hst2.
  destruct (Hlife r t Hlook) as [(_ & H1 & _)|[(Hr & _)|(_ & _ & [H3|H3])]];
    try congruence.
  destruct (Hlife r2 t2 Hlook2) as [(_ & H1 & _)|[(Hr2 & _)|(_ & _ & [H3|H3])]];
    congruence.
Qed.

Lemma task_is_queued_running_or_finished_witness :
  let t := new_task "task_1" SELF_HEALER HIGH "heal" ∅ 1 in
  let o := enqueue (init 0) t in
  let o' := {| decision_maker := decision_maker o; objects := objects o;
               task_queue := []; system_state := system_state o |} in
  let s := {| orch := execute_task_begin o' 0 5; running := Some 0%nat |} in
  @reachable plain_float_repr s
  ∧ ∃ t', objects (orch s) !! 0%nat = Some t' ∧ status t' = "in_progress"
          ∧ ∀ r2 t2, objects (orch s) !! r2 = Some t2 →
                     status t' = "in_progress" → status t2 = "in_progress" →
                     r2 = 0%nat.
Proof.
  intros t o o' s.
  assert (@reachable plain_float_repr s) as Hreach.
  { exists 0.
    eapply rtc_l; [apply (step_producer _ "task_1" SELF_HEALER HIGH "heal" ∅ 1)|].
    eapply rtc_l; [|apply rtc_refl].
    by apply (step_dequeue {| orch := o; running := None |} 0%nat o' 5). }
  split; [exact Hreach|].
  eexists. split; [reflexivity|]. split; [reflexivity|].
  exact (proj2 (@task_is_queued_running_or_finished plain_float_repr s 0%nat _
                  Hreach eq_refl)).
Defined.

Section task_history.
Context `{!FloatRepr}.

Lemma same_identity_refl t : same_identity t t.
Proof. by repeat split. Qed.

Lemma same_identity_trans t1 t2 t3 :
  same_identity t1 t2 → same_identity t2 t3 → same_identity t1 t3.
Proof. unfold same_identity. intros (?&?&?&?&?&?) (?&?&?&?&?&?). split_and!; congruence. Qed.

Lemma step_keeps_tasks s s' r t :
  sys_inv s → lifecycle s → step s s' →
  objects (orch s) !! r = Some t →
  ∃ t', objects (orch s') !! r = Some t'
        ∧ same_identity t t'
        ∧ (status t = "completed" ∨ status t = "failed" → t' = t)
        ∧ (status t = "in_progress" → status t' ≠ "pending").
Proof.
  intros [Hwf Hp Hrun Hc] Hlife Hstep Hlook.
  assert (∃ t', Some t = Some t' ∧ same_identity t t'
                ∧ (status t = "completed" ∨ status t = "failed" → t' = t)
                ∧ (status t = "in_progress" → status t' ≠ "pending")) as Hsame.
  { exists t. split_and!; try done. by intros ->. }
  destruct Hstep as [s now h1 h2|s request now|s id a p descr params now
                    |s context now|s r0 o' now Hnone Hdeq|s r0 c now Hsome]; simpl.
  - destruct (monitoring_iteration_shape (orch s) now h1 h2) as (new & -> & _).
    rewrite lookup_app_l by (by eapply lookup_lt_Some). by rewrite Hlook.
  - destruct (create_task_rejected (orch s) request now) as [detail ->]. simpl.
    by rewrite Hlook.
  - rewrite lookup_app_l by (by eapply lookup_lt_Some). by rewrite Hlook.
  - unfold api_make_decision. destruct (make_decision _ _ _) as [res dm']; simpl.
    by rewrite Hlook.
  - rewrite (dequeue_objects _ _ _ Hdeq).
    destruct (decide (r0 = r)) as [->|Hne];
      [|by rewrite list_lookup_alter_ne, Hlook].
    rewrite list_lookup_alter_eq, Hlook; simpl.
    assert (status t = "pending") as Hst.
    { destruct (Hlife r t Hlook) as [(_ & ? & _)|[(Hr & _)|(Hnin & _)]];
        [done|congruence|].
      exfalso. apply Hnin. rewrite (dequeue_perm _ _ _ Hdeq). by left. }
    eexists. split; [reflexivity|].
    split_and!; try done; try congruence; intros [?|?]; congruence.
  - destruct (decide (r0 = r)) as [->|Hne].
    + destruct (execute_task_finish_facts (orch s) r t c now Hlook)
        as ((t1 & Ht1 & Hid & Hend) & _).
      assert (status t = "in_progress") as Hst.
      { destruct (Hlife r t Hlook) as [(_ & _ & Hr)|[(_ & ? & _)|(_ & Hr & _)]];
          [congruence|done|congruence]. }
      exists t1.
      split_and!; try done;
        first [intros [?|?]; congruence | intros _; destruct Hend; congruence].
    + destruct (Hrun r0 Hsome) as [_ Hlt].
      apply lookup_lt_is_Some in Hlt as [t0 Ht0].
      destruct (execute_task_finish_facts (orch s) r0 t0 c now Ht0)
        as (_ & Hother & _).
      by rewrite Hother, Hlook.
Qed.

Lemma step_queue_from_queue_or_new s s' r :
  step s s' → r ∈ task_queue (orch s') →
  r ∈ task_queue (orch s) ∨ (length (objects (orch s)) ≤ r)%nat.
Proof.
  intros Hstep.
  destruct Hstep as [s now h1 h2|s request now|s id a p descr params now
                    |s context now|s r0 o' now Hnone Hdeq|s r0 c now Hsome]; simpl.
  - destruct (monitoring_iteration_shape (orch s) now h1 h2) as (new & _ & -> & _).
    rewrite elem_of_app, elem_of_seq. intros [?|?]; [by left|right; lia].
  - destruct (create_task_rejected (orch s) request now) as [detail ->]. by left.
  - rewrite elem_of_app, list_elem_of_singleton. intros [? | ->]; [by left|by right].
  - unfold api_make_decision. destruct (make_decision _ _ _) as [res dm']; simpl.
    by left.
  - intros Hr. left. rewrite (dequeue_perm _ _ _ Hdeq). by right.
  - destruct (execute_task_finish_shape (orch s) r0 c now) as (dm & f & _ & ->).
    by left.
Qed.

Lemma step_objects_grow s s' :
  step s s' → (length (objects (orch s)) ≤ length (objects (orch s')))%nat.
Proof.
  intros Hstep.
  destruct Hstep as [s now h1 h2|s request now|s id a p descr params now
                    |s context now|s r0 o' now Hnone Hdeq|s r0 c now Hsome]; simpl.
  - destruct (monitoring_iteration_shape (orch s) now h1 h2) as (new & -> & _).
    rewrite length_app. lia.
  - by destruct (create_task_rejected (orch s) request now) as [detail ->].
  - rewrite length_app. lia.
  - unfold api_make_decision. by destruct (make_decision _ _ _) as [res dm'].
  - by rewrite length_alter, (dequeue_objects _ _ _ Hdeq).
  - destruct (execute_task_finish_shape (orch s) r0 c now) as (dm & f & _ & ->).
    simpl. by rewrite length_alter.
Qed.

Lemma rtc_no_return s s' r :
  rtc step s s' →
  (r < length (objects (orch s)))%nat → r ∉ task_queue (orch s) →
  (r < length (objects (orch s')))%nat ∧ r ∉ task_queue (orch s').
Proof.
  intros Hrtc Hlt Hnin. revert s' Hrtc.
  apply rtc_ind_r; [done|].
  intros s1 s2 _ Hstep [Hlt1 Hnin1]. split.
  - pose proof (step_objects_grow _ _ Hstep). lia.
  - intros Hin.
    destruct (step_queue_from_queue_or_new s1 s2 r Hstep Hin) as [?|?]; [done|lia].
Qed.
End task_history.

(** X14. From a reachable state on, whatever happens next, a stored task
    stays stored with the fields given at its creation (id, agent type,
    priority, description, parameters, creation time) unchanged. A task
    that is [completed] or [failed] never changes again, and a task that
    is [in_progress] never goes back to [pending]. *)
Theorem stored_task_keeps_identity_and_end_state `{!FloatRepr} (s s' : system) r t :
  reachable s →
  rtc step s s' →
  objects (orch s) !! r = Some t →
  ∃ t', objects (orch s') !! r = Some t'
        ∧ same_identity t t'
        ∧ (status t = "completed" ∨ status t = "failed" → t' = t)
        ∧ (status t = "in_progress" → status t' ≠ "pending").
Proof.
  intros Hreach Hrtc Hlook. revert s' Hrtc.
  apply rtc_ind_r.
  - exists t. split_and!; try done. by intros ->.
  - intros s1 s2 Hpre Hstep (t1 & Hlook1 & Hid1 & Hend1 & Hprog1).
    assert (reachable s1) as Hreach1.
    { destruct Hreach as [now Hs]. exists now. by etrans. }
    destruct (step_keeps_tasks s1 s2 r t1 (reachable_inv _ Hreach1)
                (reachable_lifecycle _ Hreach1) Hstep Hlook1)
      as (t2 & Hlook2 & Hid2 & Hend2 & Hprog2).
    exists t2. split_and!; try done.
    + by eapply same_identity_trans.
    + intros Hend. specialize (Hend1 Hend). subst t1. by apply Hend2.
    + intros Hprog. specialize (Hprog1 Hprog).
      destruct (reachable_lifecycle _ Hreach1 r t1 Hlook1)
        as [(_ & ? & _)|[(_ & Hst & _)|(_ & _ & Hst)]]; [done|by apply Hprog2|].
      rewrite (Hend2 Hst). destruct Hst; congruence.
Qed.

(** X15. A task that the processing loop has taken from the queue never
    returns to it: whatever happens afterwards, its reference is in no
    later queue. There is no retry. *)
Theorem dequeued_task_never_returns `{!FloatRepr} (s s' : system) r o' now :
  reachable s →
  running s = None →
  dequeue (orch s) = Some (r, o') →
  rtc step {| orch := execute_task_begin o' r now; running := Some r |} s' →
  r ∉ task_queue (orch s').
Proof.
  intros Hreach Hnone Hdeq Hrtc.
  pose proof (reachable_inv _ Hreach) as [Hwf _ _ _].
  eapply (rtc_no_return _ s' r Hrtc); simpl.
  - rewrite length_alter, (dequeue_objects _ _ _ Hdeq).
    destruct Hwf as [Hb _ _]. rewrite Forall_forall in Hb. apply Hb.
    rewrite (dequeue_perm _ _ _ Hdeq). by left.
  - by eapply dequeue_not_in.
Qed.

Lemma stored_task_keeps_identity_and_end_state_witness :
  let t := new_task "task_1" OPTIMIZER LOW "tidy" ∅ 1 in
  let s := {| orch := enqueue (init 0) t; running := None |} in
  let c := {| t_call := 2; t_exec := 3; t_done := 4 |} in
  let s' := {| orch := @task_processing_iteration plain_float_repr (orch s) 2 c 5;
               running := None |} in
  ∃ t', objects (orch s') !! 0%nat = Some t'
        ∧ same_identity t t'
        ∧ status t' = "completed".
Proof.
  intros t s c s'.
  assert (@reachable plain_float_repr s) as Hreach.
  { exists 0. apply rtc_once.
    exact (step_producer (startup 0) "task_1" OPTIMIZER LOW "tidy" ∅ 1). }
  destruct (@stored_task_keeps_identity_and_end_state plain_float_repr s s' 0%nat t
              Hreach (@task_processing_iteration_steps plain_float_repr s 2 c 5 eq_refl)
              eq_refl)
    as (t' & Hlook & Hid & _).
  exists t'. split; [exact Hlook|]. split; [exact Hid|].
  vm_compute in Hlook. by injection Hlook as <-.
Defined.

Lemma dequeued_task_never_returns_witness :
  let t := new_task "task_1" OPTIMIZER LOW "tidy" ∅ 1 in
  let s := {| orch := enqueue (init 0) t; running := None |} in
  let o' := {| decision_maker := decision_maker (orch s); objects := objects (orch s);
               task_queue := []; system_state := system_state (orch s) |} in
  let c := {| t_call := 2; t_exec := 3; t_done := 4 |} in
  let s1 := {| orch := execute_task_begin o' 0 2; running := Some 0%nat |} in
  let s2 := {| orch := @execute_task_finish plain_float_repr (orch s1) 0 c 5;
               running := None |} in
  let s3 := {| orch := @monitoring_iteration plain_float_repr (orch s2) 60 1 69;
               running := None |} in
  task_queue (orch s3) = [1%nat] ∧ 0%nat ∉ task_queue (orch s3).
Proof.
  intros t s o' c s1 s2 s3. split; [reflexivity|].
  assert (@reachable plain_float_repr s) as Hreach.
  { exists 0. apply rtc_once.
    exact (step_producer (startup 0) "task_1" OPTIMIZER LOW "tidy" ∅ 1). }
  apply (@dequeued_task_never_returns plain_float_repr s s3 0%nat o' 2 Hreach
           eq_refl eq_refl).
  eapply rtc_l; [by apply (step_complete s1 0%nat c 5)|].
  apply rtc_once. apply (step_monitor s2 60 1 69).
Defined.

(** ** Counters that nothing moves *)

Section idle_counters.
Context `{!FloatRepr}.

Lemma step_counters_idle s s' :
  sys_inv s → counters_idle (system_state (orch s)) → step s s' →
  counters_idle (system_state (orch s')).
Proof.
  intros [Hwf Hp Hrun Hc] Hidle Hstep.
  destruct Hstep as [s now h1 h2|s request now|s id a p descr params now
                    |s context now|s r0 o' now Hnone Hdeq|s r0 c now Hsome]; simpl.
  - destruct (monitoring_iteration_shape (orch s) now h1 h2)
      as (new & _ & _ & _ & -> & _).
    destruct Hidle as (Ha & Hco & Hf & Hm & Hr).
    unfold counters_idle.
    rewrite update_system_state_active, update_system_state_completed by done.
    by split_and!.
  - by destruct (create_task_rejected (orch s) request now) as [detail ->].
  - done.
  - unfold api_make_decision. by destruct (make_decision _ _ _) as [res dm'].
  - by destruct (dequeue_Some _ _ _ Hdeq) as (rest & _ & ->).
  - by destruct (execute_task_finish_shape (orch s) r0 c now) as (dm & f & _ & ->).
Qed.

Lemma step_system_state s s' :
  step s s' →
  system_state (orch s') = system_state (orch s)
  ∨ ∃ now h1 h2,
      system_state (orch s') = system_state (update_system_state (orch s) now h1 h2).
Proof.
  intros Hstep.
  destruct Hstep as [s now h1 h2|s request now|s id a p descr params now
                    |s context now|s r0 o' now Hnone Hdeq|s r0 c now Hsome]; simpl.
  - right. exists now, h1, h2.
    by destruct (monitoring_iteration_shape (orch s) now h1 h2)
      as (new & _ & _ & _ & -> & _).
  - left. by destruct (create_task_rejected (orch s) request now) as [detail ->].
  - by left.
  - left. unfold api_make_decision. by destruct (make_decision _ _ _) as [res dm'].
  - left. by destruct (dequeue_Some _ _ _ Hdeq) as (rest & _ & ->).
  - left.
    by destruct (execute_task_finish_shape (orch s) r0 c now) as (dm & f & _ & ->).
Qed.

Lemma reachable_scores s :
  reachable s →
  (95 # 100 <= health_score (system_state (orch s))
   ∧ health_score (system_state (orch s)) <= 104 # 100)%Q
  ∧ (0 <= system_load (system_state (orch s))
     ∧ system_load (system_state (orch s)) <= 99 # 100)%Q.
Proof.
  intros [now Hrtc]. revert s Hrtc.
  apply rtc_ind_r; [by vm_compute|].
  intros s s' _ Hstep IH.
  destruct (step_system_state s s' Hstep) as [->|(t & h1 & h2 & ->)]; [done|].
  destruct (update_system_state_ranges (orch s) t h1 h2) as [Hh [Hl1 Hl2]].
  split; [done|]. split; [|done].
  apply (Qle_trans _ (3 # 10)); [by vm_compute|done].
Qed.

Lemma reachable_counters_idle s :
  reachable s → counters_idle (system_state (orch s)).
Proof.
  intros [now Hrtc]. revert s Hrtc.
  apply rtc_ind_r; [by repeat split|].
  intros s s' Hpre Hstep IH.
  eapply step_counters_idle; [|done|done].
  apply reachable_inv. by exists now.
Qed.
End idle_counters.

(** X16. The counters of the system state never move: in every reachable
    state [active_tasks], [completed_tasks] and [failed_tasks] are 0 and
    the metric and resource maps are empty, however many tasks have been
    run and however they ended. The health report therefore always has
    status [healthy] and three zero counters, with a health score between
    0.95 and 1.04 and a load between 0 and 0.99. *)
Theorem counters_never_move `{!FloatRepr} (s : system) :
  reachable s →
  counters_idle (system_state (orch s))
  ∧ hs_status (get_health_status (orch s)) = "healthy"
  ∧ m_active_tasks (hs_metrics (get_health_status (orch s))) = 0%nat
  ∧ m_completed_tasks (hs_metrics (get_health_status (orch s))) = 0%nat
  ∧ m_failed_tasks (hs_metrics (get_health_status (orch s))) = 0%nat
  ∧ (95 # 100 <= m_health_score (hs_metrics (get_health_status (orch s)))
     ∧ m_health_score (hs_metrics (get_health_status (orch s))) <= 104 # 100)%Q
  ∧ (0 <= m_system_load (hs_metrics (get_health_status (orch s)))
     ∧ m_system_load (hs_metrics (get_health_status (orch s))) <= 99 # 100)%Q.
Proof.
  intros Hreach.
  pose proof (reachable_counters_idle s Hreach) as Hidle.
  destruct (reachable_scores s Hreach) as [[Hh1 Hh2] [Hl1 Hl2]].
  split; [exact Hidle|].
  destruct Hidle as (Ha & Hc & Hf & Hm & Hr).
  simpl. by split_and!.
Qed.

Lemma counters_never_move_witness :
  let t := new_task "task_1" PROCESS_AUTOMATOR HIGH "restore" ∅ 1 in
  let s := {| orch := enqueue (init 0) t; running := None |} in
  let c := {| t_call := 2; t_exec := 3; t_done := 4 |} in
  let s1 := {| orch := @task_processing_iteration plain_float_repr (orch s) 2 c 5;
               running := None |} in
  let s2 := {| orch := @monitoring_iteration plain_float_repr (orch s1) 60 1 2;
               running := None |} in
  (status <$> objects (orch s2) !! 0%nat) = Some "failed"
  ∧ failed_tasks (system_state (orch s2)) = 0%nat
  ∧ m_failed_tasks (hs_metrics (get_health_status (orch s2))) = 0%nat.
Proof.
  intros t s c s1 s2. split; [reflexivity|].
  assert (@reachable plain_float_repr s2) as Hreach.
  { exists 0.
    eapply rtc_l; [apply (step_producer _ "task_1" PROCESS_AUTOMATOR HIGH "restore" ∅ 1)|].
    etrans; [apply (@task_processing_iteration_steps plain_float_repr s 2 c 5 eq_refl)|].
    apply rtc_once. apply (step_monitor s1 60 1 2). }
  destruct (@counters_never_move plain_float_repr s2 Hreach)
    as ((_ & _ & Hf & _) & _ & _ & _ & Hm & _).
  by split.
Defined.

(** ** Draining the queue *)

Lemma sort_by_sorted_id {A : Type} (key : A → Z) (l : list A) :
  StronglySorted (key_le key) l → sort_by key l = l.
Proof.
  intros Hs. symmetry. by apply sort_by_is_the_stable_sort.
Qed.

Lemma drain_fuel_sorted o n :
  n = length (task_queue o) →
  drain_fuel n o = omap (λ r, objects o !! r) (sort_by (sort_key o) (task_queue o)).
Proof.
  revert o. induction n as [|n IH]; intros o Hn; simpl.
  - destruct (task_queue o); [done|discriminate Hn].
  - destruct (dequeue o) as [[r o']|] eqn:Hdeq.
    + destruct (dequeue_Some _ _ _ Hdeq) as (rest & Hs & ->).
      pose proof (sort_by_sorted (sort_key o) (task_queue o)) as Hsorted.
      pose proof (sort_by_perm (sort_key o) (task_queue o)) as Hperm.
      rewrite Hs in Hsorted, Hperm.
      apply StronglySorted_inv in Hsorted as [Hrest _].
      rewrite IH; simpl.
      2:{ apply Permutation_length in Hperm. simpl in Hperm. lia. }
      rewrite Hs. unfold sort_key at 1. simpl.
      change (sort_by (λ r0, from_option (λ t, priority_value (priority t)) 0
                               (objects o !! r0)) rest)
        with (sort_by (sort_key o) rest).
      rewrite (sort_by_sorted_id _ rest Hrest).
      by destruct (objects o !! r).
    + unfold dequeue in Hdeq.
      destruct (task_queue o) as [|r0 q] eqn:Hq; [discriminate Hn|].
      destruct (sort_by (sort_key o) (r0 :: q)) as [|r rest] eqn:Hs; [|done].
      pose proof (sort_by_perm (sort_key o) (r0 :: q)) as Hperm.
      rewrite Hs in Hperm. by apply Permutation_nil_cons in Hperm.
Qed.

(** X17. Dequeuing again and again, with no arrival in between, hands out
    all the tasks of the queue in the order of one stable sort by
    priority value: lower value first, and tasks of equal priority in the
    order they had in the queue. No task is skipped and none comes
    twice. *)
Theorem drain_is_stable_priority_order (o : Orchestrator) :
  drain o = omap (λ r, objects o !! r) (sort_by (sort_key o) (task_queue o))
  ∧ sort_by (sort_key o) (task_queue o) ≡ₚ task_queue o
  ∧ StronglySorted (key_le (sort_key o)) (sort_by (sort_key o) (task_queue o))
  ∧ ∀ k, filter (λ r, sort_key o r = k) (sort_by (sort_key o) (task_queue o))
         = filter (λ r, sort_key o r = k) (task_queue o).
Proof.
  split_and!.
  - by apply drain_fuel_sorted.
  - apply sort_by_perm.
  - apply sort_by_sorted.
  - intros k. apply sort_by_filter.
Qed.

(** ** The task list *)

Section task_list.
Context `{!FloatRepr}.

Lemma queue_untouched_append o o' new :
  queue_untouched o →
  objects o' = (objects o ++ new)%list →
  task_queue o' = (task_queue o ++ seq (length (objects o)) (length new))%list →
  Forall untouched new →
  queue_untouched o'.
Proof.
  intros Hq Hobj Hqueue Hnew r. rewrite Hobj, Hqueue.
  intros [Hr|Hr]%elem_of_app.
  - destruct (Hq r Hr) as (t & Ht & Hun). exists t. split; [|done].
    rewrite lookup_app_l; [done|]. by eapply lookup_lt_Some.
  - apply elem_of_seq in Hr.
    destruct (lookup_lt_is_Some_2 new (r - length (objects o))) as [t Ht]; [lia|].
    exists t. split.
    + rewrite lookup_app_r by lia. done.
    + rewrite Forall_forall in Hnew. apply Hnew. by eapply list_elem_of_lookup_2.
Qed.

Lemma queue_untouched_shrink o o' :
  queue_untouched o →
  (∀ r, r ∈ task_queue o' → r ∈ task_queue o ∧ objects o' !! r = objects o !! r) →
  queue_untouched o'.
Proof.
  intros Hq Hsub r Hr. destruct (Hsub r Hr) as [Hin ->]. by apply Hq.
Qed.

Lemma monitoring_iteration_new_untouched o now h1 h2 :
  ∃ new,
    objects (monitoring_iteration o now h1 h2) = (objects o ++ new)%list
    ∧ task_queue (monitoring_iteration o now h1 h2)
      = (task_queue o ++ seq (length (objects o)) (length new))%list
    ∧ Forall untouched new.
Proof.
  unfold monitoring_iteration.
  set (o1 := update_system_state o now h1 h2).
  set (issues := detect_issues o1 now).
  destruct (foldl_enqueue_shape (λ issue, healing_task issue now) issues o1)
    as (Hobj2 & Hq2 & _).
  set (o2 := foldl _ o1 issues) in *.
  set (opts := detect_optimizations o2).
  destruct (foldl_enqueue_shape (λ opt, optimization_task opt now) opts o2)
    as (Hobj3 & Hq3 & _).
  exists (map (λ issue, healing_task issue now) issues
          ++ map (λ opt, optimization_task opt now) opts)%list.
  rewrite Hobj3, Hq3, Hobj2, Hq2.
  split_and!.
  - by rewrite <- (assoc_L (++)).
  - rewrite !length_app, !length_map, <- (assoc_L (++)), seq_app. done.
  - apply Forall_app. split; apply Forall_forall;
      intros t (x & -> & _)%list_elem_of_fmap; by repeat split.
Qed.

Lemma step_queue_untouched s s' :
  sys_inv s → queue_untouched (orch s) → step s s' → queue_untouched (orch s').
Proof.
  intros [Hwf Hp Hrun Hc] Hq Hstep.
  destruct Hstep as [s now h1 h2|s request now|s id a p descr params now
                    |s context now|s r0 o' now Hnone Hdeq|s r0 c now Hsome]; simpl.
  - destruct (monitoring_iteration_new_untouched (orch s) now h1 h2)
      as (new & Hobj & Hqueue & Hnew).
    by apply (queue_untouched_append (orch s) _ new).
  - by destruct (create_task_rejected (orch s) request now) as [detail ->].
  - apply (queue_untouched_append (orch s) _ [new_task id a p descr params now]);
      try done. by repeat constructor.
  - unfold api_make_decision. by destruct (make_decision _ _ _) as [res dm'].
  - apply (queue_untouched_shrink (orch s)); [done|]. simpl. intros r Hr.
    pose proof (dequeue_not_in _ _ _ Hwf Hdeq) as Hnin.
    split.
    + rewrite (dequeue_perm _ _ _ Hdeq). by right.
    + rewrite (dequeue_objects _ _ _ Hdeq), list_lookup_alter_ne; [done|].
      by intros ->.
  - destruct (Hrun r0 Hsome) as [Hnin Hlt].
    apply lookup_lt_is_Some in Hlt as [t0 Ht0].
    destruct (execute_task_finish_facts (orch s) r0 t0 c now Ht0)
      as (_ & Hother & Hqueue & _).
    apply (queue_untouched_shrink (orch s)); [done|]. intros r Hr.
    rewrite Hqueue in Hr. split; [done|]. apply Hother. by intros ->.
Qed.

Lemma reachable_queue_untouched s : reachable s → queue_untouched (orch s).
Proof.
  intros [now Hrtc]. revert s Hrtc.
  apply rtc_ind_r.
  - intros r Hr. simpl in Hr. by apply elem_of_nil in Hr.
  - intros s s' Hpre Hstep IH.
    eapply step_queue_untouched; [|done|done].
    apply reachable_inv. by exists now.
Qed.

Lemma get_tasks_spec o :
  queue_untouched o →
  length (get_tasks o) = length (task_queue o) ∧ Forall untouched (get_tasks o).
Proof.
  unfold get_tasks, queue_untouched.
  induction (task_queue o) as [|r q IH]; intros Hq; [by split|].
  destruct (Hq r ltac:(by left)) as (t & Ht & Hun).
  destruct IH as [Hlen Hall].
  { intros r' Hr'. apply Hq. by right. }
  change (omap (λ r0, objects o !! r0) (r :: q))
    with (match objects o !! r with
          | Some y => y :: omap (λ r0, objects o !! r0) q
          | None => omap (λ r0, objects o !! r0) q
          end).
  rewrite Ht. split; [simpl; by f_equal|by constructor].
Qed.
End task_list.

(** X18. In every reachable state the task list has one entry for each
    reference of the queue, in queue order, and each entry is a task as
    its constructor left it: [pending], with no start or completion time,
    no result and no error message. A task that has been started, and
    the result or error of a finished task, never shows in the list. *)
Theorem task_list_shows_untouched_tasks `{!FloatRepr} (s : system) :
  reachable s →
  length (get_tasks (orch s)) = length (task_queue (orch s))
  ∧ Forall (λ t, status t = "pending" ∧ started_at t = None ∧ completed_at t = None
                 ∧ result_payload t = None ∧ error_message t = None)
      (get_tasks (orch s)).
Proof.
  intros Hreach. apply get_tasks_spec. by apply reachable_queue_untouched.
Qed.

Lemma task_list_shows_untouched_tasks_witness :
  let t := new_task "task_1" PROCESS_AUTOMATOR HIGH "restore" ∅ 1 in
  let s := {| orch := enqueue (init 0) t; running := None |} in
  let c := {| t_call := 2; t_exec := 3; t_done := 4 |} in
  let s1 := {| orch := @task_processing_iteration plain_float_repr (orch s) 2 c 5;
               running := None |} in
  let s2 := {| orch := @monitoring_iteration plain_float_repr (orch s1) 60 1 69;
               running := None |} in
  length (objects (orch s2)) = 2%nat
  ∧ length (get_tasks (orch s2)) = 1%nat
  ∧ Forall (λ t, status t = "pending" ∧ started_at t = None ∧ completed_at t = None
                 ∧ result_payload t = None ∧ error_message t = None)
      (get_tasks (orch s2)).
Proof.
  intros t s c s1 s2. split; [reflexivity|].
  assert (@reachable plain_float_repr s2) as Hreach.
  { exists 0.
    eapply rtc_l; [apply (step_producer _ "task_1" PROCESS_AUTOMATOR HIGH "restore" ∅ 1)|].
    etrans; [apply (@task_processing_iteration_steps plain_float_repr s 2 c 5 eq_refl)|].
    apply rtc_once. apply (step_monitor s1 60 1 69). }
  destruct (@task_list_shows_untouched_tasks plain_float_repr s2 Hreach) as [Hlen Hall].
  split; [|exact Hall]. reflexivity.
Defined.

(** ** Healing plans and reports *)

Lemma strategy_cost_bounds (a : string) :
  5 ≤ default 10 (time_estimates !! a) ≤ 30.
Proof.
  unfold time_estimates.
  repeat (rewrite lookup_insert; case_decide; [simpl; lia|]).
  rewrite lookup_singleton. case_decide; simpl; lia.
Qed.

Lemma estimate_healing_time_app l1 l2 :
  estimate_healing_time (l1 ++ l2)
  = estimate_healing_time l1 + estimate_healing_time l2.
Proof.
  unfold estimate_healing_time.
  induction l1 as [|s l1 IH]; simpl; [done|]. rewrite IH. lia.
Qed.

(** X19. The estimated healing time adds up over the strategies: it is 0
    for no strategy, the estimate of a concatenation is the sum of the
    estimates, and each strategy counts between 5 and 30 minutes (10 for
    an action without an entry), so a plan of n strategies is estimated
    between 5n and 30n minutes. *)
Theorem estimate_healing_time_is_additive_and_bounded (l1 l2 : list strategy) :
  estimate_healing_time [] = 0
  ∧ estimate_healing_time (l1 ++ l2)
    = estimate_healing_time l1 + estimate_healing_time l2
  ∧ 5 * Z.of_nat (length l1) ≤ estimate_healing_time l1 ≤ 30 * Z.of_nat (length l1)
  ∧ (∀ s, time_estimates !! strat_action s = None → estimate_healing_time [s] = 10).
Proof.
  assert (5 * Z.of_nat (length l1) ≤ estimate_healing_time l1
          ≤ 30 * Z.of_nat (length l1)) as Hbounds.
  { induction l1 as [|s l1 IH]; [done|].
    change (s :: l1) with ([s] ++ l1)%list.
    rewrite estimate_healing_time_app.
    assert (estimate_healing_time [s]
            = default 10 (time_estimates !! strat_action s)) as ->.
    { unfold estimate_healing_time. simpl. lia. }
    pose proof (strategy_cost_bounds (strat_action s)).
    rewrite length_app. simpl length. lia. }
  split; [done|]. split; [apply estimate_healing_time_app|].
  split; [exact Hbounds|].
  intros s Hs. unfold estimate_healing_time. simpl. by rewrite Hs.
Qed.

(** X20. Whatever the issue, the report of [diagnose_and_heal] has a
    plan of two or three strategies with the priorities 1, 2 (and 3) in
    this order, for the issue type and severity of the diagnosis, with an
    estimated duration of 25, 35 or 40 minutes. The healing result counts
    every strategy of the plan as executed, lists one successful result
    for each in plan order, and has success rate 1: a failure is never
    reported. *)
Theorem healing_report_shape `{!FloatRepr} (issue : gmap string pyval)
    (t_plan t_run t_end : Z) :
  let rep := diagnose_and_heal issue t_plan t_run t_end in
  let plan := rep_healing_plan rep in
  let res := rep_healing_result rep in
  plan_issue_type plan = issue_type (rep_diagnosis rep)
  ∧ plan_severity plan = severity (rep_diagnosis rep)
  ∧ (length (strategies plan) = 2%nat ∨ length (strategies plan) = 3%nat)
  ∧ map strat_priority (strategies plan)
    = map Z.of_nat (seq 1 (length (strategies plan)))
  ∧ (estimated_duration plan = 25 ∨ estimated_duration plan = 35
     ∨ estimated_duration plan = 40)
  ∧ strategies_executed res = length (strategies plan)
  ∧ total_strategies res = length (strategies plan)
  ∧ success_rate res = 1%Q
  ∧ map hr_action (healing_results res) = map strat_action (strategies plan)
  ∧ map hr_priority (healing_results res) = map strat_priority (strategies plan)
  ∧ Forall (λ x, hr_success x = true) (healing_results res).
Proof.
  intros rep plan res. subst res plan rep.
  unfold diagnose_and_heal, diagnose_issue.
  destruct (contains "connection_refused" _);
    [|destruct (contains "out_of_memory" _); [|destruct (contains "timeout" _)]];
    simpl; split_and!; try done; try (by left); try (by right);
    try (by right; left); try (by right; right); repeat constructor.
Qed.

(** ** Enumerations and task creation over REST *)

Lemma Qeq_bool_inject (z n : Z) : Qeq_bool (inject_Z z) (inject_Z n) = true ↔ z = n.
Proof.
  rewrite Qeq_bool_iff. unfold Qeq; simpl. lia.
Qed.

(** X21. Looking up an enumeration member by value inverts taking the
    value of a member. For agent types, the lookup of a member's value
    gives that member, and a lookup succeeds only on the value of the
    member it gives. For priorities, the lookup of an int succeeds
    exactly on 1, 2, 3 and 4 and gives the member of that value, while
    the lookup of a text raises [ValueError] whatever the text, the
    digits "1" to "4" included. *)
Theorem enum_lookup_inverts_value `{!FloatRepr} :
  (∀ a, AgentType_of_value (agent_type_value a) = Ok a)
  ∧ (∀ v a, AgentType_of_value v = Ok a → agent_type_value a = v)
  ∧ (∀ p, TaskPriority_of_value (VInt (priority_value p)) = Ok p)
  ∧ (∀ z p, TaskPriority_of_value (VInt z) = Ok p → priority_value p = z)
  ∧ (∀ s, TaskPriority_of_value (VStr s)
          = Raise (ValueError (str_repr s +:+ " is not a valid TaskPriority"))).
Proof.
  split_and!.
  - by intros [].
  - intros v a. unfold AgentType_of_value.
    repeat match goal with
           | |- context [String.eqb v ?k] =>
               destruct (String.eqb_spec v k) as [->|_]; [by intros [= <-]|]
           end.
    intros Hx. discriminate Hx.
  - by intros [].
  - intros z p. unfold TaskPriority_of_value. simpl.
    change 1%Q with (inject_Z 1). change 2%Q with (inject_Z 2).
    change 3%Q with (inject_Z 3). change 4%Q with (inject_Z 4).
    repeat match goal with
           | |- context [Qeq_bool (inject_Z z) (inject_Z ?n)] =>
               destruct (Qeq_bool (inject_Z z) (inject_Z n)) eqn:Hq;
               [apply Qeq_bool_inject in Hq as ->; by intros [= <-]|clear Hq]
           end.
    intros Hx. discriminate Hx.
  - done.
Qed.

(** X22. Task creation over REST never creates a task. The request
    carries its priority as text, and no text is the value of a priority,
    so every request is answered with HTTP 400 and the orchestrator is
    left as it was. The detail names the priority text when the agent
    type is valid, and the agent type otherwise. *)
Theorem create_task_always_rejects `{!FloatRepr} o request now :
  (create_task o request now).2 = o
  ∧ ((∃ a, AgentType_of_value (req_agent_type request) = Ok a) →
     (create_task o request now).1
     = Raise (HTTPException 400
                (str_repr (req_priority request) +:+ " is not a valid TaskPriority")))
  ∧ ((∀ a, AgentType_of_value (req_agent_type request) ≠ Ok a) →
     (create_task o request now).1
     = Raise (HTTPException 400
                (str_repr (req_agent_type request) +:+ " is not a valid AgentType"))).
Proof.
  unfold create_task.
  destruct (AgentType_of_value (req_agent_type request)) as [a|e] eqn:Ha; simpl.
  - split_and!; try done. intros Hno. by destruct (Hno a).
  - split_and!; try done; [by intros [a ?]|].
    intros _. unfold AgentType_of_value in Ha.
    repeat (destruct (String.eqb _ _); [discriminate Ha|]).
    by injection Ha as <-.
Qed.

(** ** Selection under an urgency that is not positive *)

(** X23. When the urgency is a number that is zero (0, 0.0 or [False])
    or at most -1, a returned decision selects the first generated
    option: with zero all scores tie at 0 and the first one stays, and
    with an urgency of -1 or less no score exceeds the start value -1, so
    the fallback [options[0]] applies. *)
Theorem make_decision_falls_back_to_first_option self context now d self' w q :
  make_decision self context now = (Ok d, self') →
  context !! "urgency" = Some w →
  py_number w = Some q →
  (q == 0 ∨ q <= -1)%Q →
  head (d_options d) = Some (selected_option d).
Proof.
  intros Hmk Hw Hq Hrange.
  pose proof (make_decision_selected _ _ _ _ _ Hmk) as Hsel.
  apply make_decision_Ok in Hmk as (_ & -> & _).
  assert (∀ opt, calculate_option_score opt context
                 = Ok ((impact_score (impact opt) * (6 # 10)
                        + cost_score (cost opt) * (4 # 10)) * q)%Q) as Hscore.
  { intros opt. unfold calculate_option_score, float_mul. by rewrite Hw, Hq. }
  destruct (generate_options_cases context) as [Hty|Hnil];
    [|by rewrite Hnil, select_best_option_nil in Hsel].
  unfold generate_options in Hsel |- *.
  destruct Hty as [Hty|[Hty|Hty]]; rewrite Hty in *; simpl in Hsel |- *;
    unfold select_best_option in Hsel; simpl in Hsel;
    rewrite !Hscore in Hsel; simpl in Hsel;
    repeat (destruct (Qlt_le_dec _ _) as [?|?] in Hsel; simpl in Hsel);
    try (injection Hsel as <-; reflexivity);
    exfalso; unfold impact_score, cost_score in *; simpl in *;
    destruct Hrange; lra.
Qed.

Lemma make_decision_falls_back_to_first_option_witness :
  ∃ d self',
    make_decision {| decision_history := [] |}
      {[ "performance_issue" := VStr "slow"; "urgency" := VInt (-2) ]} 9
    = (Ok d, self')
    ∧ head (d_options d) = Some (selected_option d)
    ∧ action (selected_option d) = "scale_resources".
Proof.
  eexists _, _. split; [reflexivity|]. split; [|reflexivity].
  pose proof (make_decision_falls_back_to_first_option {| decision_history := [] |}
                {[ "performance_issue" := VStr "slow"; "urgency" := VInt (-2) ]} 9
                _ _ (VInt (-2)) (inject_Z (-2)) eq_refl eq_refl eq_refl) as Hthm.
  assert (inject_Z (-2) == 0 ∨ inject_Z (-2) <= -1)%Q as Hrange
    by (right; unfold Qle; simpl; lia).
  exact (Hthm Hrange).
Defined.
